(** * system_utils: capture resource manager, rect geometry, frame-time monitor

    A shallow embedding of [src/utils/system_utils.py].

    - [Rect]: the pure rectangle helpers ([rect_intersection],
      [clamp_rect_to_screen], ...) over integer coordinates.
    - [PerformanceMonitor]: the rolling window of frame times.  Python
      floats are idealised as exact rationals ([Q]); the clock reading of
      [time.perf_counter()] is an explicit argument of [tick].
    - [ScreenCapture]: the cached capture session.  The win32 calls are
      performed against a [backend] that decides, call by call, whether a
      native call succeeds or raises; the object's fields and the
      operating-system side (outstanding handles, call log) are threaded
      through a small state-and-exception monad. *)

From Stdlib Require Import ZArith List Bool Lia QArith.
From Stdlib Require String.
From stdpp Require Import base decidable option list gmap.

Local Open Scope Z_scope.
Set Warnings "-clear-no-such-hyp".


(** ** Python results: a value or a raised exception *)

Inductive res (A : Type) : Type :=
| Val (a : A)
| Raise.
Arguments Val {A} a.
Arguments Raise {A}.

(** ** Rect geometry *)

Module Rect.

(** A rectangle is the 4-tuple [(left, top, right, bottom)]. *)
Definition rect : Type := Z * Z * Z * Z.

Definition rect_intersection (rect1 rect2 : rect) : option rect :=
  let '(l1, t1, r1, b1) := rect1 in
  let '(l2, t2, r2, b2) := rect2 in
  let left := Z.max l1 l2 in
  let top := Z.max t1 t2 in
  let right := Z.min r1 r2 in
  let bottom := Z.min b1 b2 in
  if (left <? right) && (top <? bottom)
  then Some (left, top, right, bottom)
  else None.

(** [get_screen_resolution]: the two [GetSystemMetrics] readings, or the
    fixed fallback when the query raises.  The outcome of the native
    query is the argument. *)
Definition get_screen_resolution (metrics : res (Z * Z)) : Z * Z :=
  match metrics with
  | Val (width, height) => (width, height)
  | Raise => (1920, 1080)
  end.

Definition clamp_rect_to_screen (metrics : res (Z * Z)) (r : rect) : rect :=
  let '(screen_width, screen_height) := get_screen_resolution metrics in
  let '(left0, top0, right0, bottom0) := r in
  let left := Z.max 0 left0 in
  let top := Z.max 0 top0 in
  let right := Z.min screen_width right0 in
  let bottom := Z.min screen_height bottom0 in
  (left, top, right, bottom).

(** The pixels of a rectangle: the unit cells [(x, y)] with
    [left <= x < right] and [top <= y < bottom]. *)
Definition covers (r : rect) (x y : Z) : Prop :=
  let '(left0, top0, right0, bottom0) := r in
  left0 <= x < right0 /\ top0 <= y < bottom0.

(** Two rectangles overlap with positive area when they share a pixel. *)
Definition overlap (a b : rect) : Prop :=
  exists x y, covers a x y /\ covers b x y.

(** The overlap region of two rectangles, and what it takes for a region
    to have positive area. *)
Definition overlap_region (a b : rect) : rect :=
  let '(l1, t1, r1, b1) := a in
  let '(l2, t2, r2, b2) := b in
  (Z.max l1 l2, Z.max t1 t2, Z.min r1 r2, Z.min b1 b2).

Definition positive_area (r : rect) : Prop :=
  let '(left0, top0, right0, bottom0) := r in
  left0 < right0 /\ top0 < bottom0.

(** *** The other rectangle helpers *)

(** [is_point_in_rect]: both bounds are inclusive. *)
Definition is_point_in_rect (point : Z * Z) (r : rect) : bool :=
  let '(x, y) := point in
  let '(left0, top0, right0, bottom0) := r in
  ((left0 <=? x) && (x <=? right0)) && ((top0 <=? y) && (y <=? bottom0)).

Definition normalize_rect (r : rect) : rect :=
  let '(x1, y1, x2, y2) := r in
  (Z.min x1 x2, Z.min y1 y2, Z.max x1 x2, Z.max y1 y2).

Definition expand_rect (r : rect) (padding : Z) : rect :=
  let '(left0, top0, right0, bottom0) := r in
  (left0 - padding, top0 - padding, right0 + padding, bottom0 + padding).

(** The rectangle of the whole screen, as [get_screen_resolution]
    reports it. *)
Definition screen_rect (metrics : res (Z * Z)) : rect :=
  let '(screen_width, screen_height) := get_screen_resolution metrics in
  (0, 0, screen_width, screen_height).

(** A rectangle whose corners are in order. *)
Definition ordered (r : rect) : Prop :=
  let '(left0, top0, right0, bottom0) := r in
  left0 <= right0 /\ top0 <= bottom0.

(** A rectangle that lies within the screen. *)
Definition on_screen (metrics : res (Z * Z)) (r : rect) : Prop :=
  let '(screen_width, screen_height) := get_screen_resolution metrics in
  let '(left0, top0, right0, bottom0) := r in
  0 <= left0 /\ 0 <= top0 /\ right0 <= screen_width /\ bottom0 <= screen_height.

End Rect.

(** ** Performance monitor *)

Module PerformanceMonitor.

(** The object's fields.  [window_size] is a number of samples. *)
Record t : Type := Build {
  window_size : nat;
  frame_times : list Q;
  last_time : option Q
}.

Definition __init__ (window_size : nat) : t :=
  {| window_size := window_size; frame_times := []; last_time := None |}.

(** [l.pop(0)]: raises [IndexError] on the empty list. *)
Definition pop0 {A : Type} (l : list A) : res (A * list A) :=
  match l with
  | [] => Raise
  | x :: rest => Val (x, rest)
  end.

(** [tick]; [current_time] is the reading of [time.perf_counter()]. *)
Definition tick (current_time : Q) (self : t) : res t :=
  match last_time self with
  | Some last =>
      let frame_time := (current_time - last)%Q in
      let appended := frame_times self ++ [frame_time] in
      if (window_size self <? length appended)%nat
      then match pop0 appended with
           | Val (_, rest) =>
               Val {| window_size := window_size self;
                      frame_times := rest;
                      last_time := Some current_time |}
           | Raise => Raise
           end
      else Val {| window_size := window_size self;
                  frame_times := appended;
                  last_time := Some current_time |}
  | None =>
      Val {| window_size := window_size self;
             frame_times := frame_times self;
             last_time := Some current_time |}
  end.

(** A run of [tick] calls, one per clock reading. *)
Fixpoint ticks (readings : list Q) (self : t) : res t :=
  match readings with
  | [] => Val self
  | current_time :: later =>
      match tick current_time self with
      | Val self' => ticks later self'
      | Raise => Raise
      end
  end.

(** The builtin [sum]: starts from 0 and adds from the left. *)
Definition sum (l : list Q) : Q := fold_left Qplus l 0%Q.

(** [x / y] raises [ZeroDivisionError] when [y] is zero. *)
Definition truediv (x y : Q) : res Q :=
  if Qeq_bool y 0 then Raise else Val (x / y)%Q.

Definition len (l : list Q) : Q := inject_Z (Z.of_nat (length l)).

Definition is_empty {A : Type} (l : list A) : bool :=
  match l with [] => true | _ => false end.

Definition Qlt_bool (x y : Q) : bool := negb (Qle_bool y x).

Definition get_fps (self : t) : res Q :=
  if is_empty (frame_times self) then Val 0%Q
  else
    match truediv (sum (frame_times self)) (len (frame_times self)) with
    | Val avg_frame_time =>
        if Qlt_bool 0 avg_frame_time then truediv 1 avg_frame_time
        else Val 0%Q
    | Raise => Raise
    end.

Definition get_frame_time_ms (self : t) : res Q :=
  if is_empty (frame_times self) then Val 0%Q
  else
    match truediv (sum (frame_times self)) (len (frame_times self)) with
    | Val avg_frame_time => Val (avg_frame_time * 1000)%Q
    | Raise => Raise
    end.

(** *** Reference notions the statements are written against *)

(** The gaps between successive clock readings, the first one measured
    from [prev]. *)
Fixpoint gaps (prev : Q) (readings : list Q) : list Q :=
  match readings with
  | [] => []
  | current_time :: later => (current_time - prev)%Q :: gaps current_time later
  end.

(** The last [n] elements of a list. *)
Definition last_n {A : Type} (n : nat) (l : list A) : list A :=
  drop (length l - n) l.

(** Appending one sample to a window of [n]: the sample goes to the end,
    and the oldest sample is dropped if the window was already full. *)
Definition push (n : nat) (samples : list Q) (x : Q) : list Q :=
  if (length samples <? n)%nat then samples ++ [x]
  else drop 1 (samples ++ [x]).

(** The arithmetic mean of a list of samples. *)
Definition mean (l : list Q) : Q :=
  (fold_right Qplus 0 l / inject_Z (Z.of_nat (length l)))%Q.

(** Clock readings that never go back, the first one compared with
    [prev]. *)
Fixpoint nondecreasing (prev : Q) (readings : list Q) : Prop :=
  match readings with
  | [] => True
  | current_time :: later =>
      (prev <= current_time)%Q /\ nondecreasing current_time later
  end.

End PerformanceMonitor.

(** ** The native side: win32 calls, handles and the call log *)

Module Native.

(** The win32gui / win32ui entry points [ScreenCapture] uses. *)
Inductive call : Type :=
| GetWindowDC | CreateDCFromHandle | CreateCompatibleDC | CreateBitmap
| CreateCompatibleBitmap | SelectObject
| BitBlt | GetBitmapBits
| DeleteDC | ReleaseDC | GetHandle | DeleteObject.

Global Instance call_eq_dec : EqDecision call.
Proof. solve_decision. Defined.

(** Handles and wrapper objects are identified by a number. *)
Abbreviation handle := nat.

(** One entry of the call log: the entry point, the handle it created or
    was applied to (0 when a creation failed), and whether it returned
    normally ([false]: it raised). *)
Record event : Type := Ev { ev_call : call; ev_on : handle; ev_ok : bool }.

Global Instance event_eq_dec : EqDecision event.
Proof. solve_decision. Defined.

(** The backend decides the outcome of every native call from the entry
    point and the number of native calls made before it, and supplies the
    bytes [GetBitmapBits] returns. *)
Record backend : Type := Backend {
  succeeds : call -> nat -> bool;
  bitmap_bits : nat -> list Z
}.

(** The operating-system side: how many native calls were made, which
    handles are outstanding (acquired and not released), and the log. *)
Record world : Type := World {
  clock : nat;
  live : gset nat;
  log : list event
}.

Definition boot : world := {| clock := 0; live := ∅; log := [] |}.

End Native.

(** ** Capture resource manager *)

Module ScreenCapture.
Import Native.

Definition bbox : Type := Z * Z * Z * Z.

(** The image returned by [capture]: its [(height, width, 3)] shape and
    its bytes, row-major, blue-green-red. *)
Record Frame : Type := { shape : Z * Z * Z; pixels : list Z }.

(** The fields of a [ScreenCapture] object.  [None] is Python's [None]. *)
Record obj : Type := Obj {
  hwnd : handle;
  hwindc : option handle;
  srcdc : option handle;
  memdc : option handle;
  bmp : option handle;
  _initialized : bool;
  _last_bbox : option bbox;
  _last_width : Z;
  _last_height : Z
}.

Record state : Type := State { self : obj; os : world }.

(** *** The state-and-exception monad *)

Definition M (A : Type) : Type := state -> res A * state.

Definition ret {A : Type} (a : A) : M A := fun s => (Val a, s).

Definition bind {A B : Type} (m : M A) (k : A -> M B) : M B :=
  fun s =>
    match m s with
    | (Val a, s') => k a s'
    | (Raise, s') => (Raise, s')
    end.

Definition raise {A : Type} : M A := fun s => (Raise, s).

(** [try: body except Exception: handler]; the handler runs in the state
    the body left behind. *)
Definition try_except {A : Type} (body handler : M A) : M A :=
  fun s =>
    match body s with
    | (Val a, s') => (Val a, s')
    | (Raise, s') => handler s'
    end.

Declare Scope capture_scope.
Delimit Scope capture_scope with capture.
Notation "x <- m ;; k" := (bind m (fun x => k))
  (at level 100, m at next level, k at level 200, right associativity)
  : capture_scope.
Notation "m ;;; k" := (bind m (fun _ => k))
  (at level 100, k at level 200, right associativity) : capture_scope.
Local Open Scope capture_scope.

Definition get_self : M obj := fun s => (Val (self s), s).

Definition modify_self (f : obj -> obj) : M unit :=
  fun s => (Val tt, {| self := f (self s); os := os s |}).

Definition set_hwindc (h : handle) (o : obj) : obj :=
  Obj (hwnd o) (Some h) (srcdc o) (memdc o) (bmp o)
      (_initialized o) (_last_bbox o) (_last_width o) (_last_height o).
Definition set_srcdc (h : handle) (o : obj) : obj :=
  Obj (hwnd o) (hwindc o) (Some h) (memdc o) (bmp o)
      (_initialized o) (_last_bbox o) (_last_width o) (_last_height o).
Definition set_memdc (h : handle) (o : obj) : obj :=
  Obj (hwnd o) (hwindc o) (srcdc o) (Some h) (bmp o)
      (_initialized o) (_last_bbox o) (_last_width o) (_last_height o).
Definition set_bmp (h : handle) (o : obj) : obj :=
  Obj (hwnd o) (hwindc o) (srcdc o) (memdc o) (Some h)
      (_initialized o) (_last_bbox o) (_last_width o) (_last_height o).
Definition set_initialized (b : bool) (o : obj) : obj :=
  Obj (hwnd o) (hwindc o) (srcdc o) (memdc o) (bmp o)
      b (_last_bbox o) (_last_width o) (_last_height o).
Definition set_last_bbox (b : bbox) (o : obj) : obj :=
  Obj (hwnd o) (hwindc o) (srcdc o) (memdc o) (bmp o)
      (_initialized o) (Some b) (_last_width o) (_last_height o).
Definition set_last_width (w : Z) (o : obj) : obj :=
  Obj (hwnd o) (hwindc o) (srcdc o) (memdc o) (bmp o)
      (_initialized o) (_last_bbox o) w (_last_height o).
Definition set_last_height (h : Z) (o : obj) : obj :=
  Obj (hwnd o) (hwindc o) (srcdc o) (memdc o) (bmp o)
      (_initialized o) (_last_bbox o) (_last_width o) h.

(** [__init__]; [desktop] is what [GetDesktopWindow()] returned. *)
Definition __init__ (desktop : handle) : obj :=
  {| hwnd := desktop; hwindc := None; srcdc := None; memdc := None;
     bmp := None; _initialized := false; _last_bbox := None;
     _last_width := 0; _last_height := 0 |}.

(** Attribute access on a field that is still [None] raises. *)
Definition attr (field : option handle) : M handle :=
  match field with
  | Some h => ret h
  | None => raise
  end.

(** Truth value of a field holding a wrapper object ([srcdc], [memdc],
    [bmp]): [None] is false, an object is true. *)
Definition truthy_object (field : option handle) : bool :=
  match field with Some _ => true | None => false end.

(** Truth value of [hwindc], an integer handle: [None] and 0 are false. *)
Definition truthy_int (field : option handle) : bool :=
  match field with Some h => negb (h =? 0)%nat | None => false end.

Section WithBackend.
Variable B : backend.

(** A native call that creates a handle or wrapper object.  The new
    handle is numbered after the call that made it, so it is fresh
    and nonzero. *)
Definition acquire (c : call) : M handle :=
  fun s =>
    let w := os s in
    let n := clock w in
    if succeeds B c n
    then (Val (S n),
          {| self := self s;
             os := {| clock := S n; live := {[S n]} ∪ live w;
                      log := log w ++ [Ev c (S n) true] |} |})
    else (Raise,
          {| self := self s;
             os := {| clock := S n; live := live w;
                      log := log w ++ [Ev c 0%nat false] |} |}).

(** A native call that gives handle [h] back. *)
Definition release (c : call) (h : handle) : M unit :=
  fun s =>
    let w := os s in
    let n := clock w in
    if succeeds B c n
    then (Val tt,
          {| self := self s;
             os := {| clock := S n; live := live w ∖ {[h]};
                      log := log w ++ [Ev c h true] |} |})
    else (Raise,
          {| self := self s;
             os := {| clock := S n; live := live w;
                      log := log w ++ [Ev c h false] |} |}).

(** A native call on [h] that neither creates nor gives back a handle. *)
Definition invoke (c : call) (h : handle) : M unit :=
  fun s =>
    let w := os s in
    let n := clock w in
    let ok := succeeds B c n in
    (if ok then Val tt else Raise,
     {| self := self s;
        os := {| clock := S n; live := live w;
                 log := log w ++ [Ev c h ok] |} |}).

(** [bmp.GetBitmapBits(True)]. *)
Definition get_bitmap_bits (h : handle) : M (list Z) :=
  fun s =>
    let w := os s in
    let n := clock w in
    let ok := succeeds B GetBitmapBits n in
    (if ok then Val (bitmap_bits B n) else Raise,
     {| self := self s;
        os := {| clock := S n; live := live w;
                 log := log w ++ [Ev GetBitmapBits h ok] |} |}).

Definition _cleanup : M unit :=
  try_except
    (o <- get_self;;
     (if truthy_object (srcdc o)
      then (h <- attr (srcdc o);; release DeleteDC h) else ret tt);;;
     (if truthy_object (memdc o)
      then (h <- attr (memdc o);; release DeleteDC h) else ret tt);;;
     (if truthy_int (hwindc o)
      then (h <- attr (hwindc o);; release ReleaseDC h) else ret tt);;;
     (if truthy_object (bmp o)
      then (h <- attr (bmp o);; invoke GetHandle h;;; release DeleteObject h)
      else ret tt))
    (ret tt);;;
  modify_self (set_initialized false).

Definition _initialize_dc (width height : Z) : M bool :=
  try_except
    (h <- acquire GetWindowDC;; modify_self (set_hwindc h);;;
     h <- acquire CreateDCFromHandle;; modify_self (set_srcdc h);;;
     h <- acquire CreateCompatibleDC;; modify_self (set_memdc h);;;
     h <- acquire CreateBitmap;; modify_self (set_bmp h);;;
     invoke CreateCompatibleBitmap h;;;
     o <- get_self;;
     m <- attr (memdc o);;
     invoke SelectObject m;;;
     modify_self (set_initialized true);;;
     modify_self (set_last_width width);;;
     modify_self (set_last_height height);;;
     ret true)
    (_cleanup;;; ret false).

(** [np.frombuffer(bits, dtype='uint8').reshape((height, width, 4))]
    raises when the buffer does not hold [height * width * 4] bytes. *)
Definition reshape (bits : list Z) (height width : Z) : M (list Z) :=
  if (Z.of_nat (length bits) =? height * width * 4)%Z
  then ret bits else raise.

(** [cv2.COLOR_BGRA2BGR]: drop every fourth byte. *)
Fixpoint bgra2bgr (bits : list Z) : list Z :=
  match bits with
  | b :: g :: r :: _ :: rest => b :: g :: r :: bgra2bgr rest
  | _ => []
  end.

Definition capture (box : option bbox) : M (option Frame) :=
  match box with
  | None => ret None
  | Some (left0, top0, right0, bottom0) =>
      let width := right0 - left0 in
      let height := bottom0 - top0 in
      if (width <=? 0) || (height <=? 0) then ret None
      else
        o <- get_self;;
        (if negb (bool_decide (_last_bbox o = box))
            || negb (_initialized o)
            || negb (width =? _last_width o)
            || negb (height =? _last_height o)
         then _cleanup;;; modify_self (set_last_bbox (left0, top0, right0, bottom0))
         else ret tt);;;
        o <- get_self;;
        ok <- (if negb (_initialized o) then _initialize_dc width height
               else ret true);;
        if negb ok then ret None
        else
          try_except
            (o <- get_self;;
             m <- attr (memdc o);;
             invoke BitBlt m;;;
             b <- attr (bmp o);;
             bits <- get_bitmap_bits b;;
             img <- reshape bits height width;;
             ret (Some {| shape := (height, width, 3);
                          pixels := bgra2bgr img |}))
            (_cleanup;;; ret None)
  end.

Definition close : M unit := _cleanup.

(** Repeated calls. *)
Fixpoint closes (n : nat) : M unit :=
  match n with
  | O => ret tt
  | S n' => close;;; closes n'
  end.

(** [n] calls of [capture] with the same box, collecting what each
    call returned. *)
Fixpoint captures (n : nat) (box : option bbox) : M (list (option Frame)) :=
  match n with
  | O => ret []
  | S n' =>
      r <- capture box;;
      rs <- captures n' box;;
      ret (r :: rs)
  end.

End WithBackend.

(** *** Reference notions the statements are written against *)

Definition width (b : bbox) : Z := let '(left0, _, right0, _) := b in right0 - left0.
Definition height (b : bbox) : Z := let '(_, top0, _, bottom0) := b in bottom0 - top0.

(** A box [capture] accepts. *)
Definition valid (b : bbox) : Prop := 0 < width b /\ 0 < height b.

(** A box [capture] rejects: [right <= left] or [bottom <= top]. *)
Definition degenerate (b : bbox) : Prop :=
  let '(left0, top0, right0, bottom0) := b in
  right0 <= left0 \/ bottom0 <= top0.

(** The object holds a session built for box [b]: [capture] with [b]
    takes neither the release branch nor the build branch. *)
Definition is_cached (o : obj) (b : bbox) : bool :=
  _initialized o
  && bool_decide (_last_bbox o = Some b)
  && (width b =? _last_width o)
  && (height b =? _last_height o).

(** An initialized object holds all four handles. *)
Definition wf (o : obj) : Prop :=
  _initialized o = true ->
  truthy_int (hwindc o) = true /\ truthy_object (srcdc o) = true
  /\ truthy_object (memdc o) = true /\ truthy_object (bmp o) = true.

(** The native calls [_cleanup] makes when none of them raises, in the
    order it makes them: [srcdc], [memdc], [hwindc], [bmp]. *)
Definition release_plan (o : obj) : list (call * handle) :=
  match srcdc o with Some h => [(DeleteDC, h)] | None => [] end
  ++ match memdc o with Some h => [(DeleteDC, h)] | None => [] end
  ++ match hwindc o with
     | Some h => if (h =? 0)%nat then [] else [(ReleaseDC, h)]
     | None => []
     end
  ++ match bmp o with
     | Some h => [(GetHandle, h); (DeleteObject, h)]
     | None => []
     end.

(** The handles [_cleanup] tries to give back. *)
Definition held (o : obj) : gset nat :=
  list_to_set (map snd (release_plan o)).

(** Every outstanding handle is held by the object. *)
Definition owned (s : state) : Prop := live (os s) ⊆ held (self s).

Definition is_acquire (c : call) : bool :=
  match c with
  | GetWindowDC | CreateDCFromHandle | CreateCompatibleDC | CreateBitmap => true
  | _ => false
  end.

Definition is_release (c : call) : bool :=
  match c with
  | DeleteDC | ReleaseDC | DeleteObject => true
  | _ => false
  end.

(** Reading the call log. *)
Definition attempted (l : list event) : list (call * handle) :=
  map (fun e => (ev_call e, ev_on e)) l.

Definition acquired (l : list event) : list handle :=
  map ev_on (filter (fun e => is_acquire (ev_call e) && ev_ok e = true) l).

Definition released (l : list event) : list handle :=
  map ev_on (filter (fun e => is_release (ev_call e) && ev_ok e = true) l).

(** How many times [_initialize_dc] ran: it is the only caller of
    [GetWindowDC], and calls it first. *)
Definition inits (l : list event) : nat :=
  length (filter (fun e => ev_call e = GetWindowDC) l).

(** What was logged between state [s] and the later state [s']. *)
Definition new_log (s s' : state) : list event :=
  drop (length (log (os s))) (log (os s')).

Definition ok_events (plan : list (call * handle)) : list event :=
  map (fun p => Ev (fst p) (snd p) true) plan.

(** The log of a successful [_initialize_dc] started after [n] native
    calls: the handles are acquired in the order [hwindc], [srcdc],
    [memdc], [bmp]. *)
Definition build_events (n : nat) : list event :=
  [ Ev GetWindowDC (n + 1) true; Ev CreateDCFromHandle (n + 2) true;
    Ev CreateCompatibleDC (n + 3) true; Ev CreateBitmap (n + 4) true;
    Ev CreateCompatibleBitmap (n + 4) true; Ev SelectObject (n + 3) true ]%nat.

(** The session [_initialize_dc] builds when started after [n] native
    calls, and the world it leaves. *)
Definition built (o : obj) (n : nat) (w h : Z) : obj :=
  {| hwnd := hwnd o; hwindc := Some (n + 1)%nat; srcdc := Some (n + 2)%nat;
     memdc := Some (n + 3)%nat; bmp := Some (n + 4)%nat;
     _initialized := true; _last_bbox := _last_bbox o;
     _last_width := w; _last_height := h |}.

Definition built_world (wd : world) : world :=
  let n := clock wd in
  {| clock := (n + 6)%nat;
     live := {[ (n + 4)%nat ]} ∪ ({[ (n + 3)%nat ]}
             ∪ ({[ (n + 2)%nat ]} ∪ ({[ (n + 1)%nat ]} ∪ live wd)));
     log := log wd ++ build_events n |}.

(** The six calls of [_initialize_dc] all succeed when started after [n]
    native calls. *)
Definition build_succeeds (B : backend) (n : nat) : Prop :=
  succeeds B GetWindowDC n = true
  /\ succeeds B CreateDCFromHandle (n + 1) = true
  /\ succeeds B CreateCompatibleDC (n + 2) = true
  /\ succeeds B CreateBitmap (n + 3) = true
  /\ succeeds B CreateCompatibleBitmap (n + 4) = true
  /\ succeeds B SelectObject (n + 5) = true.

(** The [try] block of [capture] with its handler, for box [b]. *)
Definition blit_phase (B : backend) (b : bbox) : M (option Frame) :=
  try_except
    (o <- get_self;;
     m <- attr (memdc o);;
     invoke B BitBlt m;;;
     hb <- attr (bmp o);;
     bits <- get_bitmap_bits B hb;;
     img <- reshape bits (height b) (width b);;
     ret (Some {| shape := (height b, width b, 3); pixels := bgra2bgr img |}))
    (_cleanup B;;; ret None).

(** The release branch of [capture]: taken unless the object holds a
    session for [b]. *)
Definition release_phase (B : backend) (b : bbox) : M unit :=
  o <- get_self;;
  if is_cached o b then ret tt
  else (_cleanup B;;; modify_self (set_last_bbox b)).

(** The build branch of [capture]. *)
Definition build_phase (B : backend) (b : bbox) : M bool :=
  o <- get_self;;
  if negb (_initialized o) then _initialize_dc B (width b) (height b)
  else ret true.

(** The blit and the readback started after [n] native calls both work,
    and the buffer read back has one 4-byte pixel per pixel of [b]. *)
Definition blit_works (B : backend) (b : bbox) (n : nat) : Prop :=
  succeeds B BitBlt n = true
  /\ succeeds B GetBitmapBits (S n) = true
  /\ Z.of_nat (length (bitmap_bits B (S n))) = height b * width b * 4.

(** The blit raises, or the readback raises, or the buffer read back
    cannot be reshaped. *)
Definition blit_fails (B : backend) (b : bbox) (n : nat) : Prop :=
  succeeds B BitBlt n = false
  \/ succeeds B GetBitmapBits (S n) = false
  \/ Z.of_nat (length (bitmap_bits B (S n))) <> height b * width b * 4.

(** The frame made from the buffer read back at native call [n]. *)
Definition frame_of (B : backend) (b : bbox) (n : nat) : Frame :=
  {| shape := (height b, width b, 3); pixels := bgra2bgr (bitmap_bits B n) |}.

(** The world after [evs] more native calls that neither acquire nor
    release. *)
Definition logged (w : world) (evs : list event) : world :=
  {| clock := (clock w + length evs)%nat; live := live w; log := log w ++ evs |}.

(** A log of blits and readbacks only. *)
Definition only_blits (evs : list event) : Prop :=
  Forall (fun e => ev_call e = BitBlt \/ ev_call e = GetBitmapBits) evs.

(** *** Test doubles *)

(** A backend on which every native call succeeds and every readback
    returns [bits]. *)
Definition always_ok (bits : list Z) : backend :=
  {| succeeds := fun _ _ => true; bitmap_bits := fun _ => bits |}.

(** A backend on which exactly the calls of entry point [c] raise. *)
Definition fails_on (c : call) (bits : list Z) : backend :=
  {| succeeds := fun c' _ => negb (bool_decide (c' = c));
     bitmap_bits := fun _ => bits |}.

(** A backend on which entry point [c] raises when it is native call
    number [k], and nothing else does. *)
Definition fails_at (c : call) (k : nat) (bits : list Z) : backend :=
  {| succeeds := fun c' n => negb (bool_decide (c' = c) && (n =? k)%nat);
     bitmap_bits := fun _ => bits |}.

(** A backend on which [DeleteDC] always raises and [BitBlt] raises from
    native call number [k] on. *)
Definition worn_out (k : nat) (bits : list Z) : backend :=
  {| succeeds := fun c n =>
       match c with
       | DeleteDC => false
       | BitBlt => (n <? k)%nat
       | _ => true
       end;
     bitmap_bits := fun _ => bits |}.

(** A new object in a world where nothing happened yet. *)
Definition fresh : state := {| self := __init__ 0; os := boot |}.

(** A 2-by-1 box and the 8 bytes of its two pixels. *)
Definition box0 : bbox := (0, 0, 2, 1).
Definition bits0 : list Z := [10; 20; 30; 255; 40; 50; 60; 255].

(** Backends. *)
Definition all_succeed (B : backend) : Prop :=
  forall (c : call) (n : nat), succeeds B c n = true.

Definition releases_succeed (B : backend) : Prop :=
  forall (c : call) (n : nat),
    is_release c = true \/ c = GetHandle -> succeeds B c n = true.

Definition bits_fit (B : backend) (b : bbox) : Prop :=
  forall n : nat, Z.of_nat (length (bitmap_bits B n)) = height b * width b * 4.

(** Running a list of native calls against the world until one raises. *)
Fixpoint run_plan (B : backend) (plan : list (call * handle)) (w : world) : world :=
  match plan with
  | [] => w
  | (c, h) :: rest =>
      if succeeds B c (clock w)
      then run_plan B rest
             {| clock := S (clock w);
                live := if is_release c then live w ∖ {[h]} else live w;
                log := log w ++ [Ev c h true] |}
      else {| clock := S (clock w); live := live w;
              log := log w ++ [Ev c h false] |}
  end.

(** The states an object can be in: a fresh object in a world with
    nothing outstanding, followed by any [capture] and [close] calls. *)
Inductive reachable (B : backend) : state -> Prop :=
| reachable_init (desktop : handle) (n : nat) (l : list event) :
    reachable B {| self := __init__ desktop;
                   os := {| clock := n; live := ∅; log := l |} |}
| reachable_capture (box : option bbox) (s : state) :
    reachable B s -> reachable B (snd (capture B box s))
| reachable_close (s : state) :
    reachable B s -> reachable B (snd (close B s)).

(** *** Single-shot window capture *)

(** The outcome of a native query that is not part of the call log. *)
Definition lift_res {A : Type} (r : res A) : M A := fun s => (r, s).

(** [capture_window]: [window_rect] is the outcome of
    [GetWindowRect(hwnd)]; [convert bits height width] stands for
    [np.frombuffer(bits, dtype='uint8').reshape((height, width, 4))]
    followed by [cv2.cvtColor(..., cv2.COLOR_BGRA2BGR)], either of which
    may raise. *)
Definition capture_window (B : backend)
    (convert : list Z -> Z -> Z -> res Frame)
    (hwnd : handle) (window_rect : res bbox) : M (option Frame) :=
  try_except
    (rect <- lift_res window_rect;;
     let width := width rect in
     let height := height rect in
     hwindc <- acquire B GetWindowDC;;
     srcdc <- acquire B CreateDCFromHandle;;
     memdc <- acquire B CreateCompatibleDC;;
     bmp <- acquire B CreateBitmap;;
     invoke B CreateCompatibleBitmap bmp;;;
     invoke B SelectObject memdc;;;
     invoke B BitBlt memdc;;;
     bits <- get_bitmap_bits B bmp;;
     img <- lift_res (convert bits height width);;
     release B DeleteDC srcdc;;;
     release B DeleteDC memdc;;;
     release B ReleaseDC hwindc;;;
     invoke B GetHandle bmp;;;
     release B DeleteObject bmp;;;
     ret (Some img))
    (ret None).

(** The conversion [capture] itself performs, as a [convert]. *)
Definition convert_bgra (bits : list Z) (height width : Z) : res Frame :=
  if (Z.of_nat (length bits) =? height * width * 4)%Z
  then Val {| shape := (height, width, 3); pixels := bgra2bgr bits |}
  else Raise.

End ScreenCapture.

(** ** Window enumeration and lookup *)

Module Windows.

Abbreviation string := String.string.

(** What [EnumWindows] and the queries of the callback deliver for one
    top-level window: [IsWindowVisible], [GetWindowText],
    [GetWindowRect]. *)
Record raw_window : Type := {
  raw_hwnd : Z;
  is_visible : bool;
  window_text : string;
  window_rect : Rect.rect
}.

(** One entry of the list [get_window_list] returns. *)
Record window : Type := {
  hwnd : Z;
  title : string;
  rect : Rect.rect;
  width : Z;
  height : Z
}.

Definition entry (rw : raw_window) : window :=
  let '(left0, top0, right0, bottom0) := window_rect rw in
  {| hwnd := raw_hwnd rw; title := window_text rw; rect := window_rect rw;
     width := right0 - left0; height := bottom0 - top0 |}.

(** Truth value of a string: the empty string is false. *)
Definition truthy_string (s : string) : bool :=
  match s with String.EmptyString => false | _ => true end.

Definition enum_windows_callback (windows_list : list window)
    (rw : raw_window) : list window :=
  if is_visible rw
  then if truthy_string (window_text rw)
       then windows_list ++ [entry rw]
       else windows_list
  else windows_list.

(** [get_window_list]; [raws] are the top-level windows in the order
    [EnumWindows] visits them. *)
Definition get_window_list (raws : list raw_window) : list window :=
  fold_left enum_windows_callback raws [].

(** [needle in hay] on strings. *)
Fixpoint contains (needle hay : string) : bool :=
  String.prefix needle hay
  || match hay with
     | String.EmptyString => false
     | String.String _ hay' => contains needle hay'
     end.

Section WithLower.
(** [str.lower], which belongs to the language, not to the repository. *)
Variable lower : string -> string.

(** The loop of [find_window_by_title] over the window list. *)
Fixpoint search (title_pattern : string) (exact_match : bool)
    (windows : list window) : option window :=
  match windows with
  | [] => None
  | w :: rest =>
      if exact_match
      then if String.eqb (title w) title_pattern then Some w
           else search title_pattern exact_match rest
      else if contains (lower title_pattern) (lower (title w)) then Some w
           else search title_pattern exact_match rest
  end.

Definition find_window_by_title (raws : list raw_window)
    (title_pattern : string) (exact_match : bool) : option window :=
  search title_pattern exact_match (get_window_list raws).

(** The test a window has to pass. *)
Definition matches (title_pattern : string) (exact_match : bool)
    (w : window) : bool :=
  if exact_match then String.eqb (title w) title_pattern
  else contains (lower title_pattern) (lower (title w)).

End WithLower.

(** The windows [get_window_list] keeps. *)
Definition listed (rw : raw_window) : bool :=
  is_visible rw && truthy_string (window_text rw).

End Windows.

(** Sample windows. *)
Module WindowSamples.
Import String.

Definition calculator : Windows.raw_window :=
  {| Windows.raw_hwnd := 7; Windows.is_visible := true;
     Windows.window_text := "Calculator"%string;
     Windows.window_rect := (0, 0, 320, 200) |}.

Definition hidden : Windows.raw_window :=
  {| Windows.raw_hwnd := 3; Windows.is_visible := false;
     Windows.window_text := "Hidden"%string;
     Windows.window_rect := (0, 0, 10, 10) |}.

Definition calculator_title : Windows.string := "Calculator"%string.
Definition empty_pattern : Windows.string := ""%string.

End WindowSamples.

(** ** Display scale check *)

Module DisplayScale.

(** How [check_display_scale] ends: it returns, or [sys.exit] ends the
    process. *)
Inductive outcome : Type :=
| Returns
| Exits (code : Z).

(** [check_display_scale].  [dpi] is the outcome of the native calls up
    to and including [ReleaseDC] (the value is what [GetDeviceCaps]
    returned); [dialog] is the outcome of showing the error box.
    [SystemExit] is not an [Exception], so the handler lets it through. *)
Definition check_display_scale (dpi : res Z) (dialog : res unit) : outcome :=
  match dpi with
  | Val d =>
      let scale_percent := (d * 100) / 96 in
      if negb (scale_percent =? 100)
      then match dialog with
           | Val _ => Exits 1
           | Raise => Returns
           end
      else Returns
  | Raise => Returns
  end.

End DisplayScale.

(** ** Removing old files *)

Module Files.

(** One path returned by [glob.glob], with what the file system will
    answer for it: the outcome of [os.path.getmtime] and whether
    [os.remove] succeeds. *)
Record file : Type := {
  path : String.string;
  mtime : res Q;
  removable : bool
}.

(** One round of the loop; the state is the count and the paths removed
    so far. *)
Definition step (cutoff_time : Q) (acc : Z * list String.string) (f : file)
    : Z * list String.string :=
  let '(deleted_count, removed) := acc in
  match mtime f with
  | Val m =>
      if PerformanceMonitor.Qlt_bool m cutoff_time
      then if removable f
           then (deleted_count + 1, removed ++ [path f])
           else (deleted_count, removed)
      else (deleted_count, removed)
  | Raise => (deleted_count, removed)
  end.

(** [cleanup_old_files]: [now] is [time.time()], [listing] the outcome
    of [glob.glob]; the result is the returned count and the paths that
    were removed. *)
Definition cleanup_old_files (now : Q) (listing : res (list file))
    (max_age_days : Q) : Z * list String.string :=
  match listing with
  | Val files =>
      let cutoff_time := (now - max_age_days * 24 * 60 * 60)%Q in
      fold_left (step cutoff_time) files (0, [])
  | Raise => (0, [])
  end.

(** A file the loop removes. *)
Definition stale (cutoff_time : Q) (f : file) : bool :=
  match mtime f with
  | Val m => PerformanceMonitor.Qlt_bool m cutoff_time && removable f
  | Raise => false
  end.

End Files.

(** * Properties *)

(** ** Rect geometry *)

Module RectFacts.
Import Rect.

Lemma rect_intersection_some (a b : rect) :
  positive_area (overlap_region a b) ->
  rect_intersection a b = Some (overlap_region a b).
Proof.
  destruct a as [[[l1 t1] r1] b1], b as [[[l2 t2] r2] b2]; simpl.
  intros [Hx Hy].
  apply Z.ltb_lt in Hx. apply Z.ltb_lt in Hy.
  now rewrite Hx, Hy.
Qed.

Lemma rect_intersection_none (a b : rect) :
  rect_intersection a b = None <-> ~ positive_area (overlap_region a b).
Proof.
  destruct a as [[[l1 t1] r1] b1], b as [[[l2 t2] r2] b2]; simpl.
  destruct (Z.ltb_spec (Z.max l1 l2) (Z.min r1 r2)) as [Hx | Hx];
    destruct (Z.ltb_spec (Z.max t1 t2) (Z.min b1 b2)) as [Hy | Hy]; simpl;
    split; intros H; try discriminate; try reflexivity; try lia.
Qed.

(** A region of the plane with positive area contains a pixel, and the
    pixels of the overlap region are the pixels common to both. *)
Lemma positive_area_overlap (a b : rect) :
  positive_area (overlap_region a b) <-> overlap a b.
Proof.
  destruct a as [[[l1 t1] r1] b1], b as [[[l2 t2] r2] b2].
  unfold overlap; simpl. split.
  - intros [Hx Hy]. exists (Z.max l1 l2), (Z.max t1 t2). lia.
  - intros (x & y & Ha & Hb). lia.
Qed.

Lemma covers_intersection (a b r : rect) (x y : Z) :
  rect_intersection a b = Some r ->
  covers r x y <-> covers a x y /\ covers b x y.
Proof.
  destruct a as [[[l1 t1] r1] b1], b as [[[l2 t2] r2] b2]; simpl.
  destruct (_ && _); [|discriminate].
  intros [= <-]. simpl. lia.
Qed.

(** C8: [rect_intersection] is commutative, and it returns [None] exactly
    when the two rectangles do not overlap with positive area: the
    overlap region fails [left < right] or [top < bottom], equivalently
    the rectangles share no pixel. *)
Theorem rect_intersection_comm_none_iff_no_overlap (a b : rect) :
  rect_intersection a b = rect_intersection b a
  /\ (rect_intersection a b = None <-> ~ positive_area (overlap_region a b))
  /\ (rect_intersection a b = None <-> ~ overlap a b).
Proof.
  split; [|split].
  - destruct a as [[[l1 t1] r1] b1], b as [[[l2 t2] r2] b2]; simpl.
    now rewrite (Z.max_comm l2 l1), (Z.max_comm t2 t1),
      (Z.min_comm r2 r1), (Z.min_comm b2 b1).
  - apply rect_intersection_none.
  - rewrite rect_intersection_none.
    now rewrite positive_area_overlap.
Qed.

Lemma clamp_rect_to_screen_bounds (metrics : res (Z * Z)) (r : rect) :
  let '(left1, top1, right1, bottom1) := clamp_rect_to_screen metrics r in
  0 <= left1 /\ 0 <= top1
  /\ right1 <= fst (get_screen_resolution metrics)
  /\ bottom1 <= snd (get_screen_resolution metrics).
Proof.
  unfold clamp_rect_to_screen.
  destruct (get_screen_resolution metrics) as [sw sh].
  destruct r as [[[l t] rt] b]; simpl. lia.
Qed.

Lemma clamp_rect_to_screen_left_of_origin (metrics : res (Z * Z)) (l t r b : Z) :
  r < 0 ->
  let '(left1, _, right1, _) := clamp_rect_to_screen metrics (l, t, r, b) in
  right1 < left1.
Proof.
  unfold clamp_rect_to_screen.
  destruct (get_screen_resolution metrics) as [sw sh]; simpl. lia.
Qed.

(** *** The other rectangle helpers *)

Lemma is_point_in_rect_spec (x y : Z) (r : rect) :
  is_point_in_rect (x, y) r = true
  <-> (let '(left0, top0, right0, bottom0) := r in
       left0 <= x <= right0 /\ top0 <= y <= bottom0).
Proof.
  destruct r as [[[l t] rt] b]. unfold is_point_in_rect.
  rewrite !andb_true_iff, !Z.leb_le. lia.
Qed.

Lemma rect_ext (l1 t1 r1 b1 l2 t2 r2 b2 : Z) :
  l1 = l2 -> t1 = t2 -> r1 = r2 -> b1 = b2 ->
  (l1, t1, r1, b1) = (l2, t2, r2, b2).
Proof. now intros -> -> -> ->. Qed.

(** X1: [normalize_rect] puts the corners in order, leaves a rectangle
    whose corners are in order as it is, and is therefore idempotent. *)
Theorem normalize_rect_ordered_idempotent (r : rect) :
  ordered (normalize_rect r)
  /\ (ordered r -> normalize_rect r = r)
  /\ normalize_rect (normalize_rect r) = normalize_rect r.
Proof.
  destruct r as [[[x1 y1] x2] y2]. unfold ordered, normalize_rect.
  split; [lia|]. split.
  - intros [Hx Hy].
    now rewrite (Z.min_l x1 x2), (Z.min_l y1 y2), (Z.max_r x1 x2),
      (Z.max_r y1 y2) by assumption.
  - apply rect_ext; lia.
Qed.

(** X2: a point lies in [normalize_rect r] exactly when it lies between
    the two corners of [r], in whichever order they were given; swapping
    the corners does not change the normalized rectangle. *)
Theorem normalize_rect_same_points (x1 y1 x2 y2 x y : Z) :
  normalize_rect (x1, y1, x2, y2) = normalize_rect (x2, y2, x1, y1)
  /\ (is_point_in_rect (x, y) (normalize_rect (x1, y1, x2, y2)) = true
      <-> (x1 <= x <= x2 \/ x2 <= x <= x1) /\ (y1 <= y <= y2 \/ y2 <= y <= y1)).
Proof.
  split.
  - unfold normalize_rect.
    now rewrite (Z.min_comm x2 x1), (Z.min_comm y2 y1),
      (Z.max_comm x2 x1), (Z.max_comm y2 y1).
  - rewrite is_point_in_rect_spec. unfold normalize_rect. lia.
Qed.

(** X3: [expand_rect] composes additively: padding by [p] and then by
    [q] is padding by [p + q]; in particular padding by [- p] undoes
    padding by [p], and padding by 0 changes nothing. *)
Theorem expand_rect_additive (r : rect) (p q : Z) :
  expand_rect (expand_rect r p) q = expand_rect r (p + q)
  /\ expand_rect (expand_rect r p) (- p) = r
  /\ expand_rect r 0 = r.
Proof.
  destruct r as [[[l t] rt] b]. unfold expand_rect.
  repeat split; apply rect_ext; lia.
Qed.

(** X4: when [rect_intersection] returns a rectangle, a point is in it
    exactly when it is in both arguments. *)
Theorem rect_intersection_points (a b r : rect) (x y : Z) :
  rect_intersection a b = Some r ->
  is_point_in_rect (x, y) r = true
  <-> is_point_in_rect (x, y) a = true /\ is_point_in_rect (x, y) b = true.
Proof.
  destruct a as [[[l1 t1] r1] b1], b as [[[l2 t2] r2] b2].
  unfold rect_intersection.
  destruct (_ && _); [|discriminate].
  intros [= <-]. rewrite !is_point_in_rect_spec. lia.
Qed.

Lemma rect_intersection_points_witness :
  is_point_in_rect (5, 5) (4, 4, 10, 10) = true
  <-> is_point_in_rect (5, 5) (0, 0, 10, 10) = true
      /\ is_point_in_rect (5, 5) (4, 4, 20, 20) = true.
Proof.
  apply (rect_intersection_points (0, 0, 10, 10) (4, 4, 20, 20)).
  reflexivity.
Defined.

(** X5: [rect_intersection] and [is_point_in_rect] disagree on touching
    rectangles: two rectangles that share only an edge have no
    intersection, although every point of that edge is in both under the
    inclusive test of [is_point_in_rect]. *)
Theorem touching_rects_share_points_not_area (l t r b r2 y : Z) :
  l <= r -> r <= r2 -> t <= y <= b ->
  rect_intersection (l, t, r, b) (r, t, r2, b) = None
  /\ is_point_in_rect (r, y) (l, t, r, b) = true
  /\ is_point_in_rect (r, y) (r, t, r2, b) = true.
Proof.
  intros Hl Hr Hy. split; [|split].
  - unfold rect_intersection.
    destruct (Z.ltb_spec (Z.max l r) (Z.min r r2)); [lia | reflexivity].
  - apply is_point_in_rect_spec. lia.
  - apply is_point_in_rect_spec. lia.
Qed.

Lemma touching_rects_share_points_not_area_witness :
  rect_intersection (0, 0, 10, 10) (10, 0, 20, 10) = None
  /\ is_point_in_rect (10, 3) (0, 0, 10, 10) = true
  /\ is_point_in_rect (10, 3) (10, 0, 20, 10) = true.
Proof.
  apply (touching_rects_share_points_not_area 0 0 10 10 20 3); lia.
Defined.

(** X6: clamping to the screen is intersecting with the screen
    rectangle: [rect_intersection] of a rectangle with the screen
    returns the clamped rectangle when the two overlap with positive
    area, and [None] exactly when the clamped rectangle fails
    [left < right] or [top < bottom]. *)
Theorem clamp_rect_to_screen_is_intersection (metrics : res (Z * Z)) (r : rect) :
  (positive_area (clamp_rect_to_screen metrics r) ->
   rect_intersection r (screen_rect metrics)
   = Some (clamp_rect_to_screen metrics r))
  /\ (~ positive_area (clamp_rect_to_screen metrics r) ->
      rect_intersection r (screen_rect metrics) = None)
  /\ (positive_area (clamp_rect_to_screen metrics r)
      <-> overlap r (screen_rect metrics)).
Proof.
  assert (Hreg : clamp_rect_to_screen metrics r
                 = overlap_region r (screen_rect metrics)).
  { unfold clamp_rect_to_screen, screen_rect, overlap_region.
    destruct (get_screen_resolution metrics) as [sw sh].
    destruct r as [[[l t] rt] b].
    now rewrite (Z.max_comm 0 l), (Z.max_comm 0 t), (Z.min_comm sw rt),
      (Z.min_comm sh b). }
  rewrite Hreg. split; [|split].
  - apply rect_intersection_some.
  - apply rect_intersection_none.
  - apply positive_area_overlap.
Qed.

(** X7: [clamp_rect_to_screen] leaves a rectangle that lies within the
    screen as it is, and clamping twice is clamping once, whatever the
    screen metrics. *)
Theorem clamp_rect_to_screen_idempotent (metrics : res (Z * Z)) (r : rect) :
  (on_screen metrics r -> clamp_rect_to_screen metrics r = r)
  /\ clamp_rect_to_screen metrics (clamp_rect_to_screen metrics r)
     = clamp_rect_to_screen metrics r.
Proof.
  unfold on_screen, clamp_rect_to_screen.
  destruct (get_screen_resolution metrics) as [sw sh].
  destruct r as [[[l t] rt] b]. split.
  - intros (H1 & H2 & H3 & H4).
    now rewrite (Z.max_r 0 l), (Z.max_r 0 t), (Z.min_r sw rt), (Z.min_r sh b)
      by assumption.
  - apply rect_ext; lia.
Qed.

End RectFacts.

(** ** Performance monitor *)

Module PerformanceMonitorFacts.
Import PerformanceMonitor.

Lemma last_n_length {A : Type} (n : nat) (l : list A) :
  length (last_n n l) = Nat.min n (length l).
Proof. unfold last_n. rewrite length_drop. lia. Qed.

Lemma last_n_all {A : Type} (n : nat) (l : list A) :
  (length l <= n)%nat -> last_n n l = l.
Proof.
  intros H. unfold last_n.
  replace (length l - n)%nat with 0%nat by lia. reflexivity.
Qed.

(** Trimming to the last [n] commutes with appending later samples. *)
Lemma last_n_app {A : Type} (n : nat) (l r : list A) :
  last_n n (last_n n l ++ r) = last_n n (l ++ r).
Proof.
  destruct (Nat.le_gt_cases (length l) n) as [Hle | Hgt].
  - now rewrite (last_n_all n l).
  - unfold last_n at 1 3.
    rewrite !length_app, last_n_length.
    replace (Nat.min n (length l) + length r - n)%nat with (length r) by lia.
    replace (length l + length r - n)%nat
      with ((length l - n) + length r)%nat by lia.
    unfold last_n.
    rewrite <- drop_drop.
    f_equal. rewrite drop_app_le by lia. reflexivity.
Qed.

Lemma last_cons {A : Type} (l : list A) :
  forall x d : A, List.last (x :: l) d = List.last l x.
Proof.
  induction l as [| y l IH]; intros x d; [reflexivity|].
  change (List.last (x :: y :: l) d) with (List.last (y :: l) d).
  now rewrite !IH.
Qed.

Lemma push_last_n (n : nat) (samples : list Q) (x : Q) :
  (length samples <= n)%nat ->
  push n samples x = last_n n (samples ++ [x]).
Proof.
  intros Hle. unfold push, last_n. rewrite length_app. simpl.
  destruct (Nat.ltb_spec (length samples) n) as [Hlt | Hge].
  - replace (length samples + 1 - n)%nat with 0%nat by lia. reflexivity.
  - replace (length samples + 1 - n)%nat with 1%nat by lia. reflexivity.
Qed.

Lemma tick_cold (n : nat) (samples : list Q) (c : Q) :
  tick c {| window_size := n; frame_times := samples; last_time := None |}
  = Val {| window_size := n; frame_times := samples; last_time := Some c |}.
Proof. reflexivity. Qed.

Lemma tick_warm (n : nat) (samples : list Q) (prev c : Q) :
  (length samples <= n)%nat ->
  tick c {| window_size := n; frame_times := samples; last_time := Some prev |}
  = Val {| window_size := n;
           frame_times := push n samples (c - prev)%Q;
           last_time := Some c |}.
Proof.
  intros Hle. unfold tick, push; simpl.
  rewrite length_app; simpl.
  destruct (Nat.ltb_spec n (length samples + 1)) as [Hov | Hfit];
    destruct (Nat.ltb_spec (length samples) n) as [Hlt | Hge]; try lia.
  - destruct samples; reflexivity.
  - reflexivity.
Qed.

Lemma ticks_warm (n : nat) (readings : list Q) :
  forall (samples : list Q) (prev : Q),
    (length samples <= n)%nat ->
    ticks readings
      {| window_size := n; frame_times := samples; last_time := Some prev |}
    = Val {| window_size := n;
             frame_times := last_n n (samples ++ gaps prev readings);
             last_time := Some (List.last readings prev) |}.
Proof.
  induction readings as [| c later IH]; intros samples prev Hle.
  - simpl. rewrite app_nil_r, last_n_all by assumption. reflexivity.
  - cbn [ticks]. rewrite tick_warm by assumption.
    rewrite IH.
    + rewrite push_last_n by assumption.
      rewrite last_n_app, <- app_assoc, last_cons. reflexivity.
    + rewrite push_last_n, last_n_length by assumption. lia.
Qed.

(** The state after the first tick at [t0] and further ticks at
    [readings]: the window holds the last [n] gaps. *)
Lemma ticks_from_init (n : nat) (t0 : Q) (readings : list Q) :
  ticks (t0 :: readings) (__init__ n)
  = Val {| window_size := n;
           frame_times := last_n n (gaps t0 readings);
           last_time := Some (List.last readings t0) |}.
Proof.
  cbn [ticks]. unfold __init__. rewrite tick_cold.
  rewrite ticks_warm by (simpl; lia). reflexivity.
Qed.

(** C6: for every window size [n]: the first tick records the timestamp
    and appends no sample; after any further ticks the window holds the
    most recent gaps, at most [n] of them; and one more tick appends
    exactly one sample, the time elapsed since the previous tick, dropping
    the oldest sample first when the window is full. *)
Theorem tick_window_fifo (n : nat) (t0 : Q) (readings : list Q) (c : Q) :
  tick t0 (__init__ n)
  = Val {| window_size := n; frame_times := []; last_time := Some t0 |}
  /\ exists self : t,
       ticks (t0 :: readings) (__init__ n) = Val self
       /\ window_size self = n
       /\ last_time self = Some (List.last readings t0)
       /\ frame_times self = last_n n (gaps t0 readings)
       /\ (length (frame_times self) <= n)%nat
       /\ exists self' : t,
            tick c self = Val self'
            /\ window_size self' = n
            /\ last_time self' = Some c
            /\ frame_times self'
               = push n (frame_times self) (c - List.last readings t0)%Q
            /\ (length (frame_times self') <= n)%nat.
Proof.
  split; [reflexivity|].
  eexists. split; [apply ticks_from_init|]. simpl.
  assert (Hlen : (length (last_n n (gaps t0 readings)) <= n)%nat)
    by (rewrite last_n_length; lia).
  repeat split; try assumption.
  eexists. split; [apply tick_warm; assumption|]. simpl.
  repeat split.
  rewrite push_last_n, last_n_length by assumption. lia.
Qed.

(** *** Averages *)

Lemma sum_fold_right (l : list Q) :
  forall a : Q, (fold_left Qplus l a == a + fold_right Qplus 0 l)%Q.
Proof.
  induction l as [| x l IH]; intros a; simpl.
  - ring.
  - rewrite IH. ring.
Qed.

Lemma len_nonzero (x : Q) (l : list Q) : Qeq_bool (len (x :: l)) 0 = false.
Proof.
  destruct (Qeq_bool (len (x :: l)) 0) eqn:E; [|reflexivity].
  apply Qeq_bool_iff in E. unfold len, Qeq, inject_Z in E; simpl in E. lia.
Qed.

(** On a non-empty window the division by [len] goes through, and the
    quotient is the arithmetic mean. *)
Lemma average_defined (x : Q) (l : list Q) :
  exists avg : Q,
    truediv (sum (x :: l)) (len (x :: l)) = Val avg
    /\ (avg == mean (x :: l))%Q.
Proof.
  unfold truediv. rewrite len_nonzero.
  eexists. split; [reflexivity|].
  unfold mean, sum, len. rewrite sum_fold_right.
  now rewrite Qplus_0_l.
Qed.

Lemma Qlt_bool_true (x y : Q) : Qlt_bool x y = true <-> (x < y)%Q.
Proof.
  unfold Qlt_bool. rewrite negb_true_iff.
  split.
  - intros H. apply Qnot_le_lt. intros Hle.
    apply Qle_bool_iff in Hle. congruence.
  - intros H. destruct (Qle_bool y x) eqn:E; [|reflexivity].
    apply Qle_bool_iff in E. exfalso. exact (Qlt_not_le _ _ H E).
Qed.

Lemma truediv_positive (x y : Q) : (0 < y)%Q -> truediv x y = Val (x / y)%Q.
Proof.
  intros Hy. unfold truediv.
  destruct (Qeq_bool y 0) eqn:E; [|reflexivity].
  apply Qeq_bool_iff in E. rewrite E in Hy. now apply Qlt_irrefl in Hy.
Qed.

(** [get_fps] in closed form: it never raises. *)
Lemma get_fps_closed (self : t) :
  exists avg : Q,
    (frame_times self <> [] -> (avg == mean (frame_times self))%Q)
    /\ get_fps self
       = Val (if is_empty (frame_times self) then 0%Q
              else if Qlt_bool 0 avg then (1 / avg)%Q else 0%Q).
Proof.
  unfold get_fps. destruct (frame_times self) as [| x l].
  - exists 0%Q. split; [congruence | reflexivity].
  - destruct (average_defined x l) as (avg & Hdiv & Havg).
    exists avg. split; [intros _; exact Havg|].
    simpl is_empty. cbv iota. rewrite Hdiv.
    destruct (Qlt_bool 0 avg) eqn:E; [|reflexivity].
    apply Qlt_bool_true in E. now apply truediv_positive.
Qed.

Lemma get_frame_time_ms_closed (self : t) :
  exists avg : Q,
    (frame_times self <> [] -> (avg == mean (frame_times self))%Q)
    /\ get_frame_time_ms self
       = Val (if is_empty (frame_times self) then 0%Q else (avg * 1000)%Q).
Proof.
  unfold get_frame_time_ms. destruct (frame_times self) as [| x l].
  - exists 0%Q. split; [congruence | reflexivity].
  - destruct (average_defined x l) as (avg & Hdiv & Havg).
    exists avg. split; [intros _; exact Havg|].
    simpl is_empty. cbv iota. now rewrite Hdiv.
Qed.

(** C7: with no samples both getters return 0; with samples,
    [get_frame_time_ms] returns the arithmetic mean times 1000 and
    [get_fps] the reciprocal of the mean (for a positive mean).  With a
    window of 3 and ticks 10ms, 20ms, 30ms and 40ms apart, the window
    holds the last three gaps, the mean is 30ms and the rate is 100/3,
    about 33.3 frames per second. *)
Theorem getters_mean_of_window (self : t) :
  (frame_times self = [] ->
   get_fps self = Val 0%Q /\ get_frame_time_ms self = Val 0%Q)
  /\ (frame_times self <> [] ->
      (exists ms : Q,
         get_frame_time_ms self = Val ms
         /\ (ms == mean (frame_times self) * 1000)%Q)
      /\ ((0 < mean (frame_times self))%Q ->
          exists fps : Q,
            get_fps self = Val fps
            /\ (fps == 1 / mean (frame_times self))%Q))
  /\ (exists w : t,
        ticks [0; 1 # 100; 3 # 100; 6 # 100; 10 # 100]%Q (__init__ 3) = Val w
        /\ Forall2 Qeq (frame_times w) [2 # 100; 3 # 100; 4 # 100]%Q
        /\ (mean (frame_times w) == (30 # 1000))%Q
        /\ exists ms fps : Q,
             get_frame_time_ms w = Val ms /\ (ms == 30)%Q
             /\ get_fps w = Val fps /\ (fps == (100 # 3))%Q
             /\ ((333 # 10) < fps)%Q /\ (fps < (334 # 10))%Q).
Proof.
  split; [|split].
  - intros Hnil. unfold get_fps, get_frame_time_ms. rewrite Hnil. split; reflexivity.
  - intros Hne. split.
    + destruct (get_frame_time_ms_closed self) as (avg & Havg & Hms).
      destruct (frame_times self) as [| x l] eqn:E; [congruence|].
      eexists. split; [exact Hms|].
      simpl. rewrite Havg by congruence. reflexivity.
    + intros Hpos.
      destruct (get_fps_closed self) as (avg & Havg & Hfps).
      destruct (frame_times self) as [| x l] eqn:E; [congruence|].
      specialize (Havg Hne).
      assert (Hlt : Qlt_bool 0 avg = true)
        by (apply Qlt_bool_true; rewrite Havg; exact Hpos).
      simpl in Hfps. rewrite Hlt in Hfps.
      eexists. split; [exact Hfps|]. now rewrite Havg.
  - eexists. split; [vm_compute; reflexivity|].
    split; [repeat constructor|].
    split; [reflexivity|].
    eexists. eexists.
    repeat split; try (vm_compute; reflexivity).
Qed.

Lemma getters_mean_of_window_witness :
  get_frame_time_ms
    {| window_size := 3; frame_times := [1 # 50; 3 # 100]%Q; last_time := Some 0%Q |}
  = Val (((1 # 50) + (3 # 100)) / inject_Z 2 * 1000)%Q
  /\ exists fps : Q,
       get_fps
         {| window_size := 3; frame_times := [1 # 50; 3 # 100]%Q;
            last_time := Some 0%Q |} = Val fps
       /\ (fps == 40)%Q.
Proof.
  pose (m := {| window_size := 3%nat; frame_times := [1 # 50; 3 # 100]%Q;
                last_time := Some 0%Q |}).
  destruct (getters_mean_of_window m) as (_ & Hsome & _).
  destruct Hsome as (_ & Hfps); [discriminate|].
  split; [reflexivity|].
  destruct Hfps as (fps & Hget & Heq); [reflexivity|].
  exists fps. split; [exact Hget|].
  rewrite Heq. reflexivity.
Defined.

(** C10: [get_fps] never raises, whatever the samples.  When samples
    exist and their mean is not strictly positive, in particular when it
    is 0, the result is the constant 0; a result other than 0, the
    quotient [1.0 / mean], arises only for a strictly positive mean. *)
Theorem get_fps_total (self : t) :
  exists fps : Q,
    get_fps self = Val fps
    /\ (frame_times self <> [] ->
        (mean (frame_times self) == 0)%Q -> fps = 0%Q)
    /\ (~ (0 < mean (frame_times self))%Q -> fps = 0%Q)
    /\ (~ (fps == 0)%Q ->
        (0 < mean (frame_times self))%Q
        /\ (fps == 1 / mean (frame_times self))%Q).
Proof.
  destruct (get_fps_closed self) as (avg & Havg & Hfps).
  eexists. split; [exact Hfps|].
  destruct (frame_times self) as [| x l] eqn:E; simpl.
  - split; [congruence|]. split; [reflexivity|].
    intros Hnz. exfalso. apply Hnz. reflexivity.
  - assert (Hm : (avg == mean (x :: l))%Q) by (apply Havg; congruence).
    destruct (Qlt_bool 0 avg) eqn:Hlt.
    + apply Qlt_bool_true in Hlt. rewrite Hm in Hlt.
      split; [|split].
      * intros _ H0. rewrite H0 in Hlt. now apply Qlt_irrefl in Hlt.
      * intros Hn. contradiction.
      * intros _. split; [exact Hlt | now rewrite Hm].
    + split; [reflexivity|]. split; [reflexivity|].
      intros Hnz. exfalso. apply Hnz. reflexivity.
Qed.

Lemma get_fps_total_witness :
  get_fps {| window_size := 3; frame_times := [0; 0]%Q; last_time := Some 1%Q |}
  = Val 0%Q.
Proof.
  pose (m := {| window_size := 3%nat; frame_times := [0; 0]%Q;
                last_time := Some 1%Q |}).
  destruct (get_fps_total m) as (fps & Hget & Hzero & _).
  change (get_fps m = Val 0%Q).
  rewrite Hget. f_equal. apply Hzero; [discriminate | reflexivity].
Defined.

(** *** What the window measures *)

Lemma last_app_default {A : Type} (l1 l2 : list A) :
  forall d : A, List.last (l1 ++ l2) d = List.last l2 (List.last l1 d).
Proof.
  induction l1 as [| x l1 IH]; intros d; [reflexivity|].
  change ((x :: l1) ++ l2) with (x :: (l1 ++ l2)).
  now rewrite !last_cons, IH.
Qed.

Lemma gaps_length (readings : list Q) :
  forall prev : Q, length (gaps prev readings) = length readings.
Proof.
  induction readings as [| c later IH]; intros prev; [reflexivity|].
  simpl. now rewrite IH.
Qed.

Lemma gaps_drop (readings : list Q) :
  forall (d : nat) (prev : Q),
    drop d (gaps prev readings)
    = gaps (List.last (take d readings) prev) (drop d readings).
Proof.
  induction readings as [| c later IH]; intros d prev.
  - destruct d; reflexivity.
  - destruct d as [| d]; [reflexivity|].
    cbn [gaps drop take]. rewrite IH. now rewrite last_cons.
Qed.

(** The gaps telescope: their sum is the time from the first reading to
    the last. *)
Lemma gaps_telescope (readings : list Q) :
  forall prev : Q,
    (fold_right Qplus 0 (gaps prev readings) == List.last readings prev - prev)%Q.
Proof.
  induction readings as [| c later IH]; intros prev.
  - simpl. ring.
  - cbn [gaps fold_right]. rewrite IH, last_cons. ring.
Qed.

(** X8: the samples in the window add up to the time elapsed between
    the tick that opened the window and the latest tick, so the average
    frame time reported by [get_frame_time_ms] is that elapsed time
    divided by the number of samples, in milliseconds. *)
Theorem window_sum_is_elapsed_time (n : nat) (t0 : Q) (readings : list Q) :
  exists self : t,
    ticks (t0 :: readings) (__init__ n) = Val self
    /\ length (frame_times self) = Nat.min n (length readings)
    /\ (sum (frame_times self)
        == List.last readings t0
           - List.last (take (length readings - n) readings) t0)%Q
    /\ (frame_times self <> [] ->
        exists ms : Q,
          get_frame_time_ms self = Val ms
          /\ (ms == (List.last readings t0
                     - List.last (take (length readings - n) readings) t0)
                    / len (frame_times self) * 1000)%Q).
Proof.
  eexists. split; [apply ticks_from_init|]. cbn [frame_times].
  assert (Hsum : (sum (last_n n (gaps t0 readings))
                  == List.last readings t0
                     - List.last (take (length readings - n) readings) t0)%Q).
  { unfold sum. rewrite sum_fold_right, Qplus_0_l.
    unfold last_n. rewrite gaps_length, gaps_drop, gaps_telescope.
    rewrite <- (last_app_default (take (length readings - n) readings)
                  (drop (length readings - n) readings) t0).
    now rewrite take_drop. }
  split; [rewrite last_n_length, gaps_length; reflexivity|].
  split; [exact Hsum|].
  intros Hne.
  destruct (last_n n (gaps t0 readings)) as [| x l] eqn:E; [congruence|].
  unfold get_frame_time_ms. cbn [frame_times is_empty].
  unfold truediv. rewrite len_nonzero.
  eexists. split; [reflexivity|]. now rewrite Hsum.
Qed.

(** X9: in exact arithmetic (the samples and both results taken as exact
    rationals, where Python computes in floats and rounds), the two
    getters agree with each other: whenever [get_fps] reports a non-zero
    rate, the rate times the frame time in milliseconds is 1000.  Both
    are computed from the same mean; in floating point the product is
    1000 only up to rounding. *)
Theorem fps_times_frame_time_ms (self : t) (fps ms : Q) :
  get_fps self = Val fps ->
  get_frame_time_ms self = Val ms ->
  ~ (fps == 0)%Q ->
  (fps * ms == 1000)%Q.
Proof.
  unfold get_fps, get_frame_time_ms.
  destruct (frame_times self) as [| x l]; cbn [is_empty].
  - intros [= <-] _ Hnz. exfalso. apply Hnz. reflexivity.
  - destruct (average_defined x l) as (avg & Hdiv & _). rewrite Hdiv.
    destruct (Qlt_bool 0 avg) eqn:Hlt.
    + apply Qlt_bool_true in Hlt.
      rewrite truediv_positive by exact Hlt.
      intros [= <-] [= <-] _. field.
      intros H0. rewrite H0 in Hlt. now apply Qlt_irrefl in Hlt.
    + intros [= <-] _ Hnz. exfalso. apply Hnz. reflexivity.
Qed.

Lemma fps_times_frame_time_ms_witness :
  ((1 / ((0 + (1 # 50) + (3 # 100)) / inject_Z 2))
   * ((0 + (1 # 50) + (3 # 100)) / inject_Z 2 * 1000) == 1000)%Q.
Proof.
  apply (fps_times_frame_time_ms
           {| window_size := 3%nat; frame_times := [1 # 50; 3 # 100]%Q;
              last_time := Some 0%Q |}).
  - reflexivity.
  - reflexivity.
  - discriminate.
Defined.

Lemma gaps_nonnegative (readings : list Q) :
  forall prev : Q,
    nondecreasing prev readings ->
    Forall (fun x => (0 <= x)%Q) (gaps prev readings).
Proof.
  induction readings as [| c later IH]; intros prev Hmono; [constructor|].
  destruct Hmono as [Hle Hlater]. cbn [gaps]. constructor.
  - unfold Qminus. now apply (proj1 (Qle_minus_iff prev c)).
  - now apply IH.
Qed.

Lemma fold_right_nonnegative (l : list Q) :
  Forall (fun x => (0 <= x)%Q) l -> (0 <= fold_right Qplus 0 l)%Q.
Proof.
  induction 1 as [| x l Hx _ IH]; simpl; [apply Qle_refl|].
  apply (Qle_trans _ (0 + 0)%Q); [discriminate|].
  now apply Qplus_le_compat.
Qed.

(** X10: [get_fps] never reports a negative rate, whatever the stored
    samples.  When the clock readings never go back, every stored sample
    is non-negative and so is the frame time [get_frame_time_ms]
    reports. *)
Theorem rates_nonnegative (n : nat) (t0 : Q) (readings : list Q) (m : t) :
  (exists fps : Q, get_fps m = Val fps /\ (0 <= fps)%Q)
  /\ (nondecreasing t0 readings ->
      exists self : t,
        ticks (t0 :: readings) (__init__ n) = Val self
        /\ Forall (fun x => (0 <= x)%Q) (frame_times self)
        /\ exists ms : Q, get_frame_time_ms self = Val ms /\ (0 <= ms)%Q).
Proof.
  split.
  - destruct (get_fps_closed m) as (avg & _ & Hfps).
    eexists. split; [exact Hfps|].
    destruct (is_empty (frame_times m)); [apply Qle_refl|].
    destruct (Qlt_bool 0 avg) eqn:Hlt; [|apply Qle_refl].
    apply Qlt_bool_true in Hlt.
    apply Qlt_le_weak. unfold Qdiv. rewrite Qmult_1_l.
    now apply Qinv_lt_0_compat.
  - intros Hmono. eexists. split; [apply ticks_from_init|].
    cbn [frame_times].
    assert (Hall : Forall (fun x => (0 <= x)%Q) (last_n n (gaps t0 readings))).
    { unfold last_n. apply Forall_drop. now apply gaps_nonnegative. }
    split; [exact Hall|].
    destruct (get_frame_time_ms_closed
                {| window_size := n;
                   frame_times := last_n n (gaps t0 readings);
                   last_time := Some (List.last readings t0) |})
      as (avg & Havg & Hms).
    eexists. split; [exact Hms|]. cbn [frame_times] in *.
    destruct (last_n n (gaps t0 readings)) as [| x l] eqn:E;
      cbn [is_empty]; [apply Qle_refl|].
    rewrite Havg by congruence.
    apply Qmult_le_0_compat; [|discriminate].
    unfold mean. apply Qle_shift_div_l; [reflexivity|].
    rewrite Qmult_0_l. now apply fold_right_nonnegative.
Qed.

Lemma rates_nonnegative_witness :
  exists self : t,
    ticks [0; 1 # 100; 3 # 100]%Q (__init__ 3) = Val self
    /\ Forall (fun x => (0 <= x)%Q) (frame_times self).
Proof.
  destruct (rates_nonnegative 3 0 [1 # 100; 3 # 100]%Q (__init__ 3))
    as [_ Hmono].
  destruct Hmono as (self & Hrun & Hall & _).
  - repeat split; discriminate.
  - exists self. split; assumption.
Defined.

Lemma tick_warm_any (n : nat) (samples : list Q) (prev c : Q) :
  tick c {| window_size := n; frame_times := samples; last_time := Some prev |}
  = Val {| window_size := n;
           frame_times := push n samples (c - prev)%Q;
           last_time := Some c |}.
Proof.
  unfold tick, push; simpl.
  rewrite length_app; simpl.
  destruct (Nat.ltb_spec n (length samples + 1)) as [Hov | Hfit];
    destruct (Nat.ltb_spec (length samples) n) as [Hlt | Hge]; try lia.
  - destruct samples; reflexivity.
  - reflexivity.
Qed.

Lemma push_length (n : nat) (samples : list Q) (x : Q) :
  length (push n samples x)
  = (if (length samples <? n)%nat then S (length samples)
     else length samples).
Proof.
  unfold push. destruct (length samples <? n)%nat.
  - rewrite length_app. simpl. lia.
  - rewrite length_drop, length_app. simpl. lia.
Qed.

(** X11: [tick] never raises, from any state.  A first tick stores only
    the reading.  A later tick appends the new gap and drops at most one
    old sample, so a window already longer than [window_size] is not
    trimmed back: its length stays what it was. *)
Theorem tick_any_state (c : Q) (self : t) :
  exists self' : t,
    tick c self = Val self'
    /\ window_size self' = window_size self
    /\ last_time self' = Some c
    /\ match last_time self with
       | None => frame_times self' = frame_times self
       | Some prev =>
           frame_times self'
           = push (window_size self) (frame_times self) (c - prev)%Q
           /\ length (frame_times self')
              = (if (length (frame_times self) <? window_size self)%nat
                 then S (length (frame_times self))
                 else length (frame_times self))
       end.
Proof.
  destruct self as [n samples [prev|]].
  - eexists. split; [apply tick_warm_any|].
    cbn [window_size last_time frame_times].
    repeat split. apply push_length.
  - eexists. split; [apply tick_cold|]. repeat split.
Qed.

End PerformanceMonitorFacts.

(** ** Capture resource manager *)

Module ScreenCaptureFacts.
Import Native ScreenCapture.

(** *** [_cleanup] *)

(** [_cleanup] never raises; it leaves every field but [_initialized]
    alone and works through its release plan until a call raises. *)
Lemma cleanup_run (B : backend) (s : state) :
  _cleanup B s
  = (Val tt, {| self := set_initialized false (self s);
                os := run_plan B (release_plan (self s)) (os s) |}).
Proof.
  destruct s as [o w].
  destruct o as [hw hwdc sdc mdc bm ini lb lw lh].
  unfold _cleanup, release_plan, try_except, bind, get_self, modify_self,
    attr, release, invoke, ret; simpl.
  destruct sdc as [hs|], mdc as [hm|], hwdc as [[|hd]|], bm as [hb|]; simpl;
    repeat (match goal with
            | |- context [succeeds B ?c ?n] => destruct (succeeds B c n); simpl
            end);
    reflexivity.
Qed.

Lemma new_log_app (s s' : state) (evs : list event) :
  log (os s') = log (os s) ++ evs -> new_log s s' = evs.
Proof. intros H. unfold new_log. rewrite H. apply drop_app_length. Qed.

Lemma run_plan_log (B : backend) (plan : list (call * handle)) :
  forall w : world,
    exists evs : list event,
      log (run_plan B plan w) = log w ++ evs
      /\ attempted evs `prefix_of` plan
      /\ clock (run_plan B plan w) = (clock w + length evs)%nat.
Proof.
  induction plan as [| [c h] rest IH]; intros w; simpl.
  - exists []. rewrite app_nil_r.
    split; [reflexivity|]. split; [apply prefix_nil | simpl; lia].
  - destruct (succeeds B c (clock w)).
    + destruct (IH {| clock := S (clock w);
                      live := if is_release c then live w ∖ {[h]} else live w;
                      log := log w ++ [Ev c h true] |})
        as (evs & Hlog & Hpre & Hclock).
      exists (Ev c h true :: evs). simpl in *.
      rewrite Hlog, <- app_assoc. split; [reflexivity|].
      split; [now apply prefix_cons | lia].
    + exists [Ev c h false]. simpl.
      split; [reflexivity|]. split; [apply prefix_cons, prefix_nil | lia].
Qed.

Lemma run_plan_live (B : backend) (plan : list (call * handle)) :
  forall w : world, live (run_plan B plan w) ⊆ live w.
Proof.
  induction plan as [| [c h] rest IH]; intros w; simpl; [done|].
  destruct (succeeds B c (clock w)); simpl; [|done].
  etrans; [apply IH|]. simpl. destruct (is_release c); set_solver.
Qed.

(** When no call of the plan raises, the whole plan is carried out. *)
Lemma run_plan_all_ok (B : backend) (plan : list (call * handle)) :
  (forall c h n, (c, h) ∈ plan -> succeeds B c n = true) ->
  forall w : world,
    run_plan B plan w
    = {| clock := (clock w + length plan)%nat;
         live := live w ∖ list_to_set
                   (map snd (filter (fun p => is_release (fst p) = true) plan));
         log := log w ++ ok_events plan |}.
Proof.
  induction plan as [| [c h] rest IH]; intros Hok w; simpl.
  - destruct w as [n lv lg]; simpl. f_equal; [lia | set_solver |].
    now rewrite app_nil_r.
  - rewrite (Hok c h (clock w)) by (left).
    rewrite IH by (intros c' h' n' Hin; apply (Hok c' h' n'); now right). simpl.
    f_equal; [lia | | now rewrite <- app_assoc].
    rewrite filter_cons. simpl.
    destruct (is_release c); simpl; [set_solver | reflexivity].
Qed.

Lemma release_plan_is_release (o : obj) (c : call) (h : handle) :
  (c, h) ∈ release_plan o -> is_release c = true \/ c = GetHandle.
Proof.
  unfold release_plan.
  destruct (srcdc o), (memdc o), (hwindc o) as [[|?]|], (bmp o); simpl;
    rewrite ?elem_of_cons, ?elem_of_nil; intros H;
    repeat (destruct H as [H | H]); try (inversion H; subst; simpl; tauto);
    try contradiction.
Qed.

Lemma release_plan_released (o : obj) :
  list_to_set
    (map snd (filter (fun p => is_release (fst p) = true) (release_plan o)))
  = held o.
Proof.
  unfold held, release_plan.
  destruct (srcdc o), (memdc o), (hwindc o) as [[|?]|], (bmp o);
    vm_compute filter; simpl; set_solver.
Qed.

(** [_cleanup] against a backend whose release calls succeed. *)
Lemma cleanup_releases (B : backend) (s : state) :
  releases_succeed B ->
  _cleanup B s
  = (Val tt,
     {| self := set_initialized false (self s);
        os := {| clock := (clock (os s) + length (release_plan (self s)))%nat;
                 live := live (os s) ∖ held (self s);
                 log := log (os s) ++ ok_events (release_plan (self s)) |} |}).
Proof.
  intros HB. rewrite cleanup_run. f_equal. f_equal.
  rewrite run_plan_all_ok.
  - now rewrite release_plan_released.
  - intros c h n Hin. apply HB. eapply release_plan_is_release, Hin.
Qed.

Lemma inits_app (l1 l2 : list event) : inits (l1 ++ l2) = (inits l1 + inits l2)%nat.
Proof. unfold inits. now rewrite filter_app, length_app. Qed.

Lemma inits_release_plan (o : obj) (evs : list event) :
  attempted evs `prefix_of` release_plan o -> inits evs = 0%nat.
Proof.
  intros [rest Hrest].
  assert (Hall : forall e, e ∈ evs -> ev_call e <> GetWindowDC).
  { intros e He Hc.
    assert (Hin : (ev_call e, ev_on e) ∈ release_plan o).
    { rewrite Hrest. apply elem_of_app. left.
      unfold attempted. apply list_elem_of_fmap. now exists e. }
    apply release_plan_is_release in Hin. rewrite Hc in Hin.
    destruct Hin; discriminate. }
  clear Hrest. unfold inits.
  induction evs as [| e evs IH]; [reflexivity|].
  rewrite filter_cons. rewrite decide_False by (apply Hall; left).
  apply IH. intros e' He'. apply Hall. now right.
Qed.

(** *** [_initialize_dc] *)

Arguments _cleanup B s : simpl never.

Lemma initialize_dc_ok (B : backend) (w h : Z) (s : state) :
  build_succeeds B (clock (os s)) ->
  _initialize_dc B w h s
  = (Val true, {| self := built (self s) (clock (os s)) w h;
                  os := built_world (os s) |}).
Proof.
  intros (H1 & H2 & H3 & H4 & H5 & H6).
  destruct s as [o [n lv lg]]; simpl in *.
  unfold _initialize_dc, try_except, bind, acquire, invoke, modify_self,
    get_self, attr, ret; simpl.
  rewrite H1; simpl.
  replace (S n) with (n + 1)%nat by lia. rewrite H2; simpl.
  replace (S (n + 1)) with (n + 2)%nat by lia. rewrite H3; simpl.
  replace (S (n + 2)) with (n + 3)%nat by lia. rewrite H4; simpl.
  replace (S (n + 3)) with (n + 4)%nat by lia. rewrite H5; simpl.
  replace (S (n + 4)) with (n + 5)%nat by lia. rewrite H6; simpl.
  unfold built, built_world, build_events; simpl.
  replace (S (n + 5)) with (n + 6)%nat by lia.
  repeat rewrite <- app_assoc. reflexivity.
Qed.

Lemma held_spec (o : obj) (x : handle) :
  x ∈ held o
  <-> srcdc o = Some x \/ memdc o = Some x
      \/ (hwindc o = Some x /\ x <> 0%nat) \/ bmp o = Some x.
Proof.
  unfold held, release_plan.
  destruct (srcdc o) as [hs|], (memdc o) as [hm|], (hwindc o) as [hw|],
    (bmp o) as [hb|]; simpl;
    try (destruct (Nat.eqb_spec hw 0)); simpl; set_unfold;
    intuition (try congruence; auto);
    repeat match goal with
           | H : Some _ = Some _ |- _ => injection H as H
           end; subst; auto; try lia.
Qed.

Lemma held_set_initialized (o : obj) (f : bool) :
  held (set_initialized f o) = held o.
Proof. reflexivity. Qed.

(** After a failed step, [_initialize_dc] runs [_cleanup] and reports
    [False]; [pre] is what the steps before had logged, and every handle
    they acquired is in a field of the object. *)
Lemma init_failure_path (B : backend) (o1 : obj) (wd w1 : world)
    (pre : list event) :
  log w1 = log wd ++ pre ->
  inits pre = 1%nat ->
  live w1 ⊆ live wd ∪ held o1 ->
  exists (ok : bool) (s' : state) (evs : list event),
    (let (r, s1) := _cleanup B {| self := o1; os := w1 |} in
     match r with
     | Val _ => (Val false, s1)
     | Raise => (Raise, s1)
     end) = (Val ok, s')
    /\ log (os s') = log wd ++ evs
    /\ inits evs = 1%nat
    /\ (if ok then build_succeeds B (clock wd)
        else _initialized (self s') = false)
    /\ (releases_succeed B -> ok = false -> live (os s') ⊆ live wd).
Proof.
  intros Hlog Hpre Hlive. rewrite cleanup_run.
  destruct (run_plan_log B (release_plan o1) w1) as (evs & Hrun & Hplan & _).
  exists false. eexists. exists (pre ++ evs).
  split; [reflexivity|]. cbn [self os].
  split; [rewrite Hrun, Hlog; now rewrite app_assoc|].
  split; [rewrite inits_app, Hpre, (inits_release_plan o1) by assumption;
          reflexivity|].
  split; [reflexivity|].
  intros HB _.
  pose proof (cleanup_releases B {| self := o1; os := w1 |} HB) as Hrel.
  rewrite cleanup_run in Hrel. injection Hrel as Hrel.
  rewrite Hrel. cbn [self os live]. set_solver.
Qed.

(** [_initialize_dc] never raises, calls [GetWindowDC] exactly once, and
    reports [True] only when all six of its native calls succeeded; when
    it reports [False] and the release calls work, it leaves outstanding
    nothing that was not outstanding before. *)
Lemma initialize_dc_total (B : backend) (w h : Z) (s : state) :
  exists (ok : bool) (s' : state) (evs : list event),
    _initialize_dc B w h s = (Val ok, s')
    /\ log (os s') = log (os s) ++ evs
    /\ inits evs = 1%nat
    /\ (if ok then build_succeeds B (clock (os s))
        else _initialized (self s') = false)
    /\ (releases_succeed B -> ok = false -> live (os s') ⊆ live (os s)).
Proof.
  destruct (succeeds B GetWindowDC (clock (os s))) eqn:H1;
  [destruct (succeeds B CreateDCFromHandle (clock (os s) + 1)) eqn:H2;
   [destruct (succeeds B CreateCompatibleDC (clock (os s) + 2)) eqn:H3;
    [destruct (succeeds B CreateBitmap (clock (os s) + 3)) eqn:H4;
     [destruct (succeeds B CreateCompatibleBitmap (clock (os s) + 4)) eqn:H5;
      [destruct (succeeds B SelectObject (clock (os s) + 5)) eqn:H6|]|]|]|]|].
  1: { exists true. eexists. exists (build_events (clock (os s))).
       split; [apply initialize_dc_ok; repeat split; assumption|].
       split; [reflexivity|]. split; [reflexivity|].
       split; [repeat split; assumption | discriminate]. }
  all: destruct s as [o [n lv lg]]; simpl in *;
    unfold _initialize_dc, try_except, bind, acquire, invoke, modify_self,
      get_self, attr, ret; simpl;
    rewrite ?H1; simpl;
    replace (S n) with (n + 1)%nat by lia; rewrite ?H2; simpl;
    replace (S (n + 1)) with (n + 2)%nat by lia; rewrite ?H3; simpl;
    replace (S (n + 2)) with (n + 3)%nat by lia; rewrite ?H4; simpl;
    replace (S (n + 3)) with (n + 4)%nat by lia; rewrite ?H5; simpl;
    replace (S (n + 4)) with (n + 5)%nat by lia; rewrite ?H6; simpl;
    eapply (init_failure_path B _ {| clock := n; live := lv; log := lg |});
    simpl;
    [ repeat rewrite <- app_assoc; reflexivity
    | reflexivity
    | intros x Hx; rewrite elem_of_union, held_spec; simpl;
      set_unfold in Hx; intuition (subst; auto with lia) ].
Qed.

(** *** [capture] *)

Lemma valid_not_degenerate (b : bbox) :
  valid b -> (width b <=? 0) || (height b <=? 0) = false.
Proof.
  intros [Hw Hh]. apply orb_false_iff. split; apply Z.leb_gt; assumption.
Qed.

(** [capture] on a valid box is its three phases in sequence. *)
Lemma capture_phases (B : backend) (b : bbox) (s : state) :
  valid b ->
  capture B (Some b) s
  = (release_phase B b;;;
     ok <- build_phase B b;;
     if negb ok then ret None else blit_phase B b)%capture s.
Proof.
  intros Hv. pose proof (valid_not_degenerate b Hv) as Hnd.
  destruct b as [[[l t] r] bt]. unfold capture.
  unfold width, height in Hnd. rewrite Hnd.
  unfold release_phase, build_phase, blit_phase, bind, get_self, is_cached,
    width, height.
  cbn [self].
  destruct (decide (_last_bbox (self s) = Some (l, t, r, bt))) as [Hb | Hb];
    [rewrite !bool_decide_eq_true_2 by exact Hb
    | rewrite !bool_decide_eq_false_2 by exact Hb];
    destruct (_initialized (self s)),
      (r - l =? _last_width (self s)), (bt - t =? _last_height (self s));
    reflexivity.
Qed.

Lemma blit_phase_spec (B : backend) (b : bbox) (s : state) (m hb : handle) :
  memdc (self s) = Some m ->
  bmp (self s) = Some hb ->
  let n := clock (os s) in
  (blit_works B b n
   /\ blit_phase B b s
      = (Val (Some (frame_of B b (S n))),
         {| self := self s;
            os := logged (os s) [Ev BitBlt m true; Ev GetBitmapBits hb true] |}))
  \/ (blit_fails B b n
      /\ exists pre : list event,
           inits pre = 0%nat
           /\ blit_phase B b s
              = (Val None,
                 {| self := set_initialized false (self s);
                    os := run_plan B (release_plan (self s))
                            (logged (os s) pre) |})).
Proof.
  intros Hm Hb n. subst n.
  destruct s as [o [n lv lg]]; simpl in *.
  unfold blit_phase, blit_works, blit_fails, try_except, bind, get_self, attr,
    invoke, get_bitmap_bits, reshape, ret, raise, logged, frame_of; simpl.
  rewrite Hm, Hb; simpl.
  destruct (succeeds B BitBlt n) eqn:H1; simpl.
  - destruct (succeeds B GetBitmapBits (S n)) eqn:H2; simpl.
    + destruct (Z.eqb_spec (Z.of_nat (length (bitmap_bits B (S n))))
                  (height b * width b * 4)) as [H3 | H3]; simpl.
      * left. split; [repeat split; assumption|].
        replace (n + 2)%nat with (S (S n)) by lia.
        now rewrite <- app_assoc.
      * right. split; [right; right; assumption|].
        exists [Ev BitBlt m true; Ev GetBitmapBits hb true].
        split; [reflexivity|]. rewrite cleanup_run. simpl.
        replace (n + 2)%nat with (S (S n)) by lia.
        now rewrite <- app_assoc.
    + right. split; [right; left; reflexivity|].
      exists [Ev BitBlt m true; Ev GetBitmapBits hb false].
      split; [reflexivity|]. rewrite cleanup_run. simpl.
      replace (n + 2)%nat with (S (S n)) by lia.
      now rewrite <- app_assoc.
  - right. split; [left; reflexivity|].
    exists [Ev BitBlt m false].
    split; [reflexivity|]. rewrite cleanup_run. simpl.
    replace (n + 1)%nat with (S n) by lia. reflexivity.
Qed.

Lemma capture_steps (B : backend) (b : bbox) (s : state) :
  valid b ->
  capture B (Some b) s
  = (let (r, s1) := release_phase B b s in
     match r with
     | Val _ =>
         let (r0, s2) := build_phase B b s1 in
         match r0 with
         | Val ok => if negb ok then (Val None, s2) else blit_phase B b s2
         | Raise => (Raise, s2)
         end
     | Raise => (Raise, s1)
     end).
Proof.
  intros Hv. rewrite capture_phases by exact Hv. unfold bind at 1 2.
  destruct (release_phase B b s) as [[[]|] s1]; [|reflexivity].
  destruct (build_phase B b s1) as [[[|]|] s2]; reflexivity.
Qed.

Lemma release_phase_cached (B : backend) (b : bbox) (s : state) :
  is_cached (self s) b = true -> release_phase B b s = (Val tt, s).
Proof.
  intros Hc. unfold release_phase, bind, get_self. cbn [self]. now rewrite Hc.
Qed.

Lemma release_phase_uncached (B : backend) (b : bbox) (s : state) :
  is_cached (self s) b = false ->
  release_phase B b s
  = (Val tt, {| self := set_last_bbox b (set_initialized false (self s));
                os := run_plan B (release_plan (self s)) (os s) |}).
Proof.
  intros Hc. unfold release_phase, bind, get_self. cbn [self]. rewrite Hc.
  now rewrite cleanup_run.
Qed.

Lemma build_phase_skip (B : backend) (b : bbox) (s : state) :
  _initialized (self s) = true -> build_phase B b s = (Val true, s).
Proof.
  intros Hi. unfold build_phase, bind, get_self. cbn [self]. now rewrite Hi.
Qed.

Lemma build_phase_run (B : backend) (b : bbox) (s : state) :
  _initialized (self s) = false ->
  build_phase B b s = _initialize_dc B (width b) (height b) s.
Proof.
  intros Hi. unfold build_phase, bind, get_self. cbn [self]. now rewrite Hi.
Qed.

(** *** Well-behaved backends: build once, then reuse *)

Lemma all_succeed_releases (B : backend) : all_succeed B -> releases_succeed B.
Proof. intros H c n _. apply H. Qed.

Lemma all_succeed_build (B : backend) (n : nat) : all_succeed B -> build_succeeds B n.
Proof. intros H. repeat split; apply H. Qed.

Lemma all_succeed_blit (B : backend) (b : bbox) (n : nat) :
  all_succeed B -> bits_fit B b -> blit_works B b n.
Proof. intros H Hfit. repeat split; try apply H. apply Hfit. Qed.

Lemma blit_works_not_fails (B : backend) (b : bbox) (n : nat) :
  blit_works B b n -> ~ blit_fails B b n.
Proof. intros (H1 & H2 & H3) [H | [H | H]]; congruence. Qed.

Lemma is_cached_initialized (o : obj) (b : bbox) :
  is_cached o b = true -> _initialized o = true.
Proof.
  unfold is_cached. intros H.
  repeat (apply andb_true_iff in H; destruct H as [H ?]). exact H.
Qed.

(** The handles of an initialized, well-formed object. *)
Lemma wf_session (o : obj) :
  wf o -> _initialized o = true ->
  exists hw hs hm hb : handle,
    hwindc o = Some hw /\ hw <> 0%nat /\ srcdc o = Some hs
    /\ memdc o = Some hm /\ bmp o = Some hb
    /\ release_plan o
       = [(DeleteDC, hs); (DeleteDC, hm); (ReleaseDC, hw);
          (GetHandle, hb); (DeleteObject, hb)].
Proof.
  intros Hwf Hini. destruct (Hwf Hini) as (H1 & H2 & H3 & H4).
  unfold release_plan.
  destruct (hwindc o) as [hw|], (srcdc o) as [hs|], (memdc o) as [hm|],
    (bmp o) as [hb|]; try discriminate.
  simpl in H1. destruct (Nat.eqb_spec hw 0) as [E | E]; [discriminate|].
  exists hw, hs, hm, hb. repeat split; assumption.
Qed.

(** A cached session is reused: the call blits and reads back, nothing
    else. *)
Lemma capture_reuse (B : backend) (b : bbox) (s : state) :
  valid b -> wf (self s) -> is_cached (self s) b = true ->
  blit_works B b (clock (os s)) ->
  exists hm hb : handle,
    memdc (self s) = Some hm /\ bmp (self s) = Some hb
    /\ capture B (Some b) s
       = (Val (Some (frame_of B b (S (clock (os s))))),
          {| self := self s;
             os := logged (os s)
                     [Ev BitBlt hm true; Ev GetBitmapBits hb true] |}).
Proof.
  intros Hv Hwf Hc Hblit.
  pose proof (is_cached_initialized _ _ Hc) as Hini.
  destruct (wf_session _ Hwf Hini) as (hw & hs & hm & hb & _ & _ & _ & Hm & Hb & _).
  exists hm, hb. split; [exact Hm|]. split; [exact Hb|].
  rewrite capture_steps by exact Hv.
  rewrite release_phase_cached by exact Hc.
  rewrite build_phase_skip by exact Hini. cbn [negb].
  destruct (blit_phase_spec B b s hm hb Hm Hb) as [[_ Hok] | [Hfail _]].
  - exact Hok.
  - now apply blit_works_not_fails in Hblit.
Qed.

(** Without a cached session for [b]: one [_cleanup], one
    [_initialize_dc], then the blit. *)
Lemma capture_rebuild (B : backend) (b : bbox) (s : state) :
  valid b -> is_cached (self s) b = false ->
  all_succeed B -> bits_fit B b ->
  let n := (clock (os s) + length (release_plan (self s)))%nat in
  let s1 :=
    {| self := built (set_last_bbox b (set_initialized false (self s)))
                 n (width b) (height b);
       os := logged
               (built_world
                  {| clock := n; live := live (os s) ∖ held (self s);
                     log := log (os s) ++ ok_events (release_plan (self s)) |})
               [Ev BitBlt (n + 3) true; Ev GetBitmapBits (n + 4) true] |} in
  capture B (Some b) s = (Val (Some (frame_of B b (S (n + 6)))), s1).
Proof.
  intros Hv Hc Hall Hfit n s1.
  rewrite capture_steps by exact Hv.
  rewrite release_phase_uncached by exact Hc.
  rewrite build_phase_run by reflexivity.
  rewrite run_plan_all_ok, release_plan_released
    by (intros; now apply Hall).
  rewrite initialize_dc_ok by (apply all_succeed_build; exact Hall).
  cbn [negb self os clock].
  match goal with
  | |- blit_phase B b ?st = _ =>
      destruct (blit_phase_spec B b st (n + 3) (n + 4) eq_refl eq_refl)
        as [[_ Hok] | [Hfail _]]
  end.
  - exact Hok.
  - exfalso. eapply blit_works_not_fails; [|exact Hfail].
    now apply all_succeed_blit.
Qed.

Lemma logged_logged (w : world) (e1 e2 : list event) :
  logged (logged w e1) e2 = logged w (e1 ++ e2).
Proof.
  unfold logged; simpl. rewrite length_app, <- app_assoc. f_equal. lia.
Qed.

Lemma logged_nil (w : world) : logged w [] = w.
Proof.
  destruct w as [n lv lg]. unfold logged; simpl.
  rewrite app_nil_r. f_equal. lia.
Qed.

Lemma only_blits_quiet (evs : list event) :
  only_blits evs ->
  inits evs = 0%nat /\ acquired evs = [] /\ released evs = [].
Proof.
  unfold inits, acquired, released.
  induction 1 as [| e evs He _ IH]; [repeat split|].
  destruct IH as (IH1 & IH2 & IH3).
  rewrite !filter_cons.
  destruct He as [He | He]; rewrite He; simpl; repeat split; assumption.
Qed.

(** Any number of further calls with the same box reuse the session. *)
Lemma captures_reuse (B : backend) (b : bbox) (n : nat) :
  valid b -> all_succeed B -> bits_fit B b ->
  forall s : state,
    wf (self s) -> is_cached (self s) b = true ->
    exists (frames : list (option Frame)) (evs : list event),
      captures B n (Some b) s
      = (Val frames, {| self := self s; os := logged (os s) evs |})
      /\ length frames = n
      /\ Forall is_Some frames
      /\ only_blits evs.
Proof.
  intros Hv Hall Hfit. induction n as [| n IH]; intros s Hwf Hc.
  - exists [], []. rewrite logged_nil. destruct s. repeat split; constructor.
  - destruct (capture_reuse B b s Hv Hwf Hc) as (hm & hb & _ & _ & Hcap);
      [now apply all_succeed_blit|].
    cbn [captures]. unfold bind at 1. rewrite Hcap. unfold bind, ret.
    match goal with
    | |- context [captures B n (Some b) ?st] =>
        destruct (IH st Hwf Hc) as (frames & evs & Hrest & Hlen & Hsome & Hblits)
    end.
    rewrite Hrest. cbn [self os].
    eexists (_ :: frames), (_ ++ evs).
    rewrite logged_logged. split; [reflexivity|].
    split; [simpl; now rewrite Hlen|].
    split; [constructor; [eexists; reflexivity | exact Hsome]|].
    unfold only_blits. simpl.
    constructor; [left; reflexivity|].
    constructor; [right; reflexivity | exact Hblits].
Qed.

Lemma acquired_app (l1 l2 : list event) :
  acquired (l1 ++ l2) = acquired l1 ++ acquired l2.
Proof. unfold acquired. now rewrite filter_app, map_app. Qed.

Lemma released_app (l1 l2 : list event) :
  released (l1 ++ l2) = released l1 ++ released l2.
Proof. unfold released. now rewrite filter_app, map_app. Qed.

Lemma release_plan_quiet (o : obj) :
  inits (ok_events (release_plan o)) = 0%nat
  /\ acquired (ok_events (release_plan o)) = [].
Proof.
  unfold release_plan.
  destruct (srcdc o), (memdc o), (hwindc o) as [[|?]|], (bmp o);
    split; reflexivity.
Qed.

Lemma built_cached (o : obj) (b : bbox) (n : nat) :
  is_cached (built (set_last_bbox b o) n (width b) (height b)) b = true.
Proof.
  unfold is_cached, built, set_last_bbox; simpl.
  rewrite bool_decide_eq_true_2 by reflexivity.
  now rewrite !Z.eqb_refl.
Qed.

Lemma built_wf (o : obj) (n : nat) (w h : Z) : wf (built o n w h).
Proof.
  intros _. unfold built; simpl. repeat split.
  destruct (Nat.eqb_spec (n + 1) 0); [lia | reflexivity].
Qed.

(** C1 (as amended): against a backend whose native calls all succeed
    and whose readback returns the 4 bytes per pixel of the box, a run of
    [capture] calls with one valid box runs [_initialize_dc] at most once:
    the first call reuses the cached session if it was built for this box
    and otherwise performs exactly one release (of each handle of the old
    session, once) and one rebuild, and every later call reuses that
    session, acquiring and releasing nothing. *)
Theorem capture_same_box_builds_once
    (B : backend) (s : state) (b : bbox) (n : nat) :
  all_succeed B -> bits_fit B b -> valid b -> wf (self s) ->
  exists (f1 : Frame) (s1 : state),
    capture B (Some b) s = (Val (Some f1), s1)
    /\ (if is_cached (self s) b
        then self s1 = self s
             /\ inits (new_log s s1) = 0%nat
             /\ acquired (new_log s s1) = []
             /\ released (new_log s s1) = []
        else
          let k := (clock (os s) + length (release_plan (self s)))%nat in
          new_log s s1
          = ok_events (release_plan (self s)) ++ build_events k
            ++ [Ev BitBlt (k + 3) true; Ev GetBitmapBits (k + 4) true]
          /\ inits (new_log s s1) = 1%nat
          /\ acquired (new_log s s1) = [k + 1; k + 2; k + 3; k + 4]%nat
          /\ (_initialized (self s) = true ->
              exists hw hs hm hb : handle,
                hwindc (self s) = Some hw /\ srcdc (self s) = Some hs
                /\ memdc (self s) = Some hm /\ bmp (self s) = Some hb
                /\ released (new_log s s1) = [hs; hm; hw; hb]))
    /\ is_cached (self s1) b = true
    /\ exists (frames : list (option Frame)) (s' : state),
         captures B n (Some b) s1 = (Val frames, s')
         /\ length frames = n
         /\ Forall is_Some frames
         /\ self s' = self s1
         /\ live (os s') = live (os s1)
         /\ inits (new_log s1 s') = 0%nat
         /\ acquired (new_log s1 s') = []
         /\ released (new_log s1 s') = []
         /\ (inits (new_log s s') <= 1)%nat.
Proof.
  intros Hall Hfit Hv Hwf.
  assert (Hfirst : exists (f1 : Frame) (s1 : state) (evs1 : list event),
             capture B (Some b) s = (Val (Some f1), s1)
             /\ log (os s1) = log (os s) ++ evs1
             /\ wf (self s1) /\ is_cached (self s1) b = true
             /\ (if is_cached (self s) b
                 then self s1 = self s /\ only_blits evs1
                 else evs1
                      = ok_events (release_plan (self s))
                        ++ build_events
                             (clock (os s) + length (release_plan (self s)))
                        ++ [Ev BitBlt
                              (clock (os s) + length (release_plan (self s)) + 3)
                              true;
                            Ev GetBitmapBits
                              (clock (os s) + length (release_plan (self s)) + 4)
                              true])).
  { destruct (is_cached (self s) b) eqn:Hc.
    - destruct (capture_reuse B b s Hv Hwf Hc) as (hm & hb & _ & _ & Hcap);
        [now apply all_succeed_blit|].
      eexists _, _, _. split; [exact Hcap|]. cbn [self os logged log].
      split; [reflexivity|]. split; [exact Hwf|]. split; [exact Hc|].
      split; [reflexivity|].
      constructor; [left; reflexivity|].
      constructor; [right; reflexivity | constructor].
    - pose proof (capture_rebuild B b s Hv Hc Hall Hfit) as Hcap.
      cbv zeta in Hcap.
      eexists _, _, _. split; [exact Hcap|].
      cbn [self os logged built_world log clock].
      split; [now rewrite <- !app_assoc|].
      split; [apply built_wf|]. split; [apply built_cached | reflexivity]. }
  destruct Hfirst as (f1 & s1 & evs1 & Hcap & Hlog1 & Hwf1 & Hc1 & Hcase).
  exists f1, s1. split; [exact Hcap|].
  rewrite (new_log_app s s1 evs1 Hlog1).
  split.
  { destruct (is_cached (self s) b) eqn:Hc.
    - destruct Hcase as [Hself Hblits].
      split; [exact Hself|]. now apply only_blits_quiet.
    - cbv zeta. split; [exact Hcase|]. subst evs1.
      destruct (release_plan_quiet (self s)) as [Hq1 Hq2].
      split; [rewrite inits_app, Hq1; reflexivity|].
      split; [rewrite acquired_app, Hq2; reflexivity|].
      intros Hini.
      destruct (wf_session _ Hwf Hini)
        as (hw & hs & hm & hb & E1 & _ & E2 & E3 & E4 & Hplan).
      exists hw, hs, hm, hb. repeat split; try assumption.
      rewrite released_app, Hplan. reflexivity. }
  split; [exact Hc1|].
  destruct (captures_reuse B b n Hv Hall Hfit s1 Hwf1 Hc1)
    as (frames & evs & Hrest & Hlen & Hsome & Hblits).
  eexists frames, _. split; [exact Hrest|].
  destruct (only_blits_quiet evs Hblits) as (Hi & Ha & Hr).
  cbn [self os logged live].
  rewrite (new_log_app s1 _ evs) by reflexivity.
  rewrite (new_log_app s _ (evs1 ++ evs))
    by (cbn [os logged log]; rewrite Hlog1; now rewrite app_assoc).
  repeat split; try assumption.
  rewrite inits_app, Hi, Nat.add_0_r.
  destruct (is_cached (self s) b).
  - destruct Hcase as [_ Hb1]. apply only_blits_quiet in Hb1.
    destruct Hb1 as [-> _]. lia.
  - subst evs1. rewrite inits_app.
    destruct (release_plan_quiet (self s)) as [-> _].
    apply Nat.eq_le_incl. reflexivity.
Qed.

Lemma capture_same_box_builds_once_witness :
  exists (f1 : Frame) (s1 : state),
    capture (always_ok bits0) (Some box0) fresh = (Val (Some f1), s1)
    /\ is_cached (self s1) box0 = true
    /\ inits (new_log fresh s1) = 1%nat
    /\ exists (frames : list (option Frame)) (s' : state),
         captures (always_ok bits0) 3 (Some box0) s1 = (Val frames, s')
         /\ self s' = self s1
         /\ inits (new_log s1 s') = 0%nat.
Proof.
  destruct (capture_same_box_builds_once (always_ok bits0) fresh box0 3)
    as (f1 & s1 & Hcap & Hcase & Hc & frames & s' & Hrest & _ & _ & Hself
        & _ & Hi & _).
  - intros c n. reflexivity.
  - intros n. reflexivity.
  - split; reflexivity.
  - intros H. discriminate H.
  - exists f1, s1. split; [exact Hcap|]. split; [exact Hc|].
    split; [apply Hcase|].
    exists frames, s'. repeat split; assumption.
Defined.

(** C1, as stated, fails.  Every native call succeeds, but the readback
    hands back 7 bytes where the 2-by-1 box needs 8.  The reshape sits in
    the [try] block of [capture], so it raises into the handler:
    [_cleanup] runs and the call returns [None] with the manager
    uninitialized.  Three captures of the same valid box therefore run
    [_initialize_dc] three times, acquiring twelve handles, and no call
    reuses a session. *)
Lemma capture_short_readback_counterexample :
  let B := always_ok [1; 2; 3; 4; 5; 6; 7] in
  let s1 := snd (capture B (Some box0) fresh) in
  let s' := snd (captures B 3 (Some box0) fresh) in
  all_succeed B
  /\ valid box0
  /\ reachable B fresh
  /\ fst (capture B (Some box0) fresh) = Val None
  /\ is_cached (self s1) box0 = false
  /\ fst (captures B 3 (Some box0) fresh) = Val [None; None; None]
  /\ inits (new_log fresh s') = 3%nat
  /\ acquired (new_log fresh s')
     = [1; 2; 3; 4; 19; 20; 21; 22; 37; 38; 39; 40]%nat.
Proof.
  cbv zeta.
  split; [intros c n; reflexivity|].
  split; [split; reflexivity|].
  split; [apply (reachable_init _ 0 0 [])|].
  repeat split; vm_compute; reflexivity.
Qed.

(** *** Rejected boxes *)

Lemma capture_degenerate (B : backend) (s : state) (b : bbox) :
  degenerate b -> capture B (Some b) s = (Val None, s).
Proof.
  destruct b as [[[l t] r] bt]. intros Hdeg.
  unfold degenerate in Hdeg. unfold capture.
  assert (Hrej : (r - l <=? 0) || (bt - t <=? 0) = true).
  { apply orb_true_iff. destruct Hdeg; [left | right]; apply Z.leb_le; lia. }
  now rewrite Hrej.
Qed.

(** C2: for an absent or degenerate box, [capture] returns [None] and
    the state it leaves is the state it found: the object's fields, the
    outstanding handles, the number of native calls made and the call log
    are all unchanged. *)
Theorem capture_rejects_absent_or_degenerate (B : backend) (s : state) :
  capture B None s = (Val None, s)
  /\ forall b : bbox, degenerate b -> capture B (Some b) s = (Val None, s).
Proof.
  split; [reflexivity|].
  intros b Hdeg. now apply capture_degenerate.
Qed.

Lemma capture_rejects_absent_or_degenerate_witness :
  capture (always_ok bits0) (Some (5, 5, 5, 9)) fresh = (Val None, fresh)
  /\ capture (always_ok bits0) (Some (5, 9, 7, 3)) fresh = (Val None, fresh).
Proof.
  split;
    apply (proj2 (capture_rejects_absent_or_degenerate (always_ok bits0) fresh));
    simpl; lia.
Defined.

(** C9: [clamp_rect_to_screen] keeps the result within
    [0 <= left], [0 <= top], [right <= screen width],
    [bottom <= screen height], yet the result need not be a box [capture]
    accepts: a rectangle wholly left of [x = 0] is clamped to one with
    [right < left], on which [capture] returns [None]. *)
Theorem clamp_rect_to_screen_bounds_not_validity
    (metrics : res (Z * Z)) (r : Rect.rect) :
  (let '(left1, top1, right1, bottom1) := Rect.clamp_rect_to_screen metrics r in
   0 <= left1 /\ 0 <= top1
   /\ right1 <= fst (Rect.get_screen_resolution metrics)
   /\ bottom1 <= snd (Rect.get_screen_resolution metrics))
  /\ exists off : Rect.rect,
       (let '(_, _, right0, _) := off in right0 < 0)
       /\ (let '(left1, _, right1, _) := Rect.clamp_rect_to_screen metrics off in
           right1 < left1)
       /\ forall (B : backend) (s : state),
            capture B (Some (Rect.clamp_rect_to_screen metrics off)) s
            = (Val None, s).
Proof.
  split; [apply RectFacts.clamp_rect_to_screen_bounds|].
  exists (-100, 10, -50, 60). split; [simpl; lia|].
  pose proof (RectFacts.clamp_rect_to_screen_left_of_origin
                metrics (-100) 10 (-50) 60 ltac:(lia)) as Hdeg.
  split; [exact Hdeg|].
  intros B s. apply capture_degenerate.
  destruct (Rect.clamp_rect_to_screen metrics (-100, 10, -50, 60))
    as [[[l1 t1] r1] b1].
  simpl. lia.
Qed.

(** *** Any backend: [capture] never raises and keeps the object sound *)

Lemma run_plan_release_live (B : backend) (o : obj) (w : world) :
  releases_succeed B ->
  live (run_plan B (release_plan o) w) = live w ∖ held o.
Proof.
  intros HB. rewrite run_plan_all_ok.
  - simpl. now rewrite release_plan_released.
  - intros c h n Hin. apply HB. eapply release_plan_is_release, Hin.
Qed.

Lemma wf_uninitialized (o : obj) : _initialized o = false -> wf o.
Proof. intros H Hini. congruence. Qed.

Lemma blit_phase_total (B : backend) (b : bbox) (s : state) (m hb : handle) :
  memdc (self s) = Some m ->
  bmp (self s) = Some hb ->
  exists (r : option Frame) (s' : state) (evs : list event),
    blit_phase B b s = (Val r, s')
    /\ log (os s') = log (os s) ++ evs
    /\ inits evs = 0%nat
    /\ match r with
       | Some _ => self s' = self s /\ live (os s') = live (os s)
       | None =>
           self s' = set_initialized false (self s)
           /\ (releases_succeed B ->
               live (os s') = live (os s) ∖ held (self s))
       end.
Proof.
  intros Hm Hb.
  destruct (blit_phase_spec B b s m hb Hm Hb)
    as [[_ Hok] | [_ (pre & Hpre & Hfail)]].
  - eexists _, _, _. split; [exact Hok|]. cbn [self os logged log live].
    repeat split.
  - destruct (run_plan_log B (release_plan (self s)) (logged (os s) pre))
      as (evs & Hrun & Hplan & _).
    eexists None, _, (pre ++ evs). split; [exact Hfail|]. cbn [self os].
    split; [rewrite Hrun; cbn [logged log]; now rewrite app_assoc|].
    split; [rewrite inits_app, Hpre, (inits_release_plan (self s)) by assumption;
            reflexivity|].
    split; [reflexivity|].
    intros HB. now rewrite run_plan_release_live.
Qed.

Lemma built_held (o : obj) (n : nat) (w h : Z) (x : handle) :
  x ∈ held (built o n w h)
  <-> x = (n + 1)%nat \/ x = (n + 2)%nat \/ x = (n + 3)%nat \/ x = (n + 4)%nat.
Proof.
  rewrite held_spec. unfold built; simpl.
  split.
  - intros [H | [H | [[H _] | H]]]; injection H as <-; auto.
  - intros [-> | [-> | [-> | ->]]]; auto.
    right. right. left. split; [reflexivity | lia].
Qed.

Lemma built_world_live (w : world) (x : handle) :
  x ∈ live (built_world w)
  <-> (x = (clock w + 1)%nat \/ x = (clock w + 2)%nat
       \/ x = (clock w + 3)%nat \/ x = (clock w + 4)%nat)
      \/ x ∈ live w.
Proof. unfold built_world; simpl. set_solver. Qed.

(** Releasing what the object holds leaves nothing outstanding when
    every outstanding handle is held. *)
Lemma owned_released (s : state) (x : handle) :
  owned s -> x ∈ live (os s) ∖ held (self s) -> False.
Proof.
  intros Hown Hx. apply elem_of_difference in Hx as [Hx Hn].
  apply Hn, Hown, Hx.
Qed.

(** [capture] with a valid box, whatever the backend does: it returns
    normally, runs [_initialize_dc] once unless the session is cached,
    and ends either with a session cached for the box or uninitialized. *)
Lemma capture_valid_total (B : backend) (b : bbox) (s : state) :
  valid b -> wf (self s) ->
  exists (r : option Frame) (s' : state) (evs : list event),
    capture B (Some b) s = (Val r, s')
    /\ log (os s') = log (os s) ++ evs
    /\ inits evs = (if is_cached (self s) b then 0 else 1)%nat
    /\ wf (self s')
    /\ match r with
       | Some _ => is_cached (self s') b = true
       | None => _initialized (self s') = false
       end
    /\ (releases_succeed B -> owned s ->
        owned s' /\ (r = None -> live (os s') = ∅)).
Proof.
  intros Hv Hwf. rewrite capture_steps by exact Hv.
  destruct (is_cached (self s) b) eqn:Hc.
  - pose proof (is_cached_initialized _ _ Hc) as Hini.
    destruct (wf_session _ Hwf Hini)
      as (hw & hs & hm & hb & _ & _ & _ & Hm & Hb & _).
    rewrite release_phase_cached by exact Hc.
    rewrite build_phase_skip by exact Hini. cbn [negb].
    destruct (blit_phase_total B b s hm hb Hm Hb)
      as (r & s' & evs & Hblit & Hlog & Hi & Hr).
    exists r, s', evs. split; [exact Hblit|]. split; [exact Hlog|].
    split; [exact Hi|].
    destruct r as [f|].
    + destruct Hr as [Hself Hlive]. rewrite Hself.
      split; [exact Hwf|]. split; [exact Hc|].
      intros _ Hown. split; [|discriminate].
      unfold owned. now rewrite Hself, Hlive.
    + destruct Hr as [Hself Hlive]. rewrite Hself.
      split; [now apply wf_uninitialized|]. split; [reflexivity|].
      intros HB Hown.
      assert (Hempty : live (os s') = ∅).
      { rewrite (Hlive HB). apply elem_of_equiv_empty_L. intros x Hx.
        exact (owned_released s x Hown Hx). }
      split; [|intros _; exact Hempty].
      unfold owned. rewrite Hempty. apply empty_subseteq.
  - rewrite release_phase_uncached by exact Hc.
    rewrite build_phase_run by reflexivity.
    destruct (run_plan_log B (release_plan (self s)) (os s))
      as (evs0 & Hlog0 & Hplan0 & _).
    pose proof (inits_release_plan _ _ Hplan0) as Hi0.
    set (s1 := {| self := set_last_bbox b (set_initialized false (self s));
                  os := run_plan B (release_plan (self s)) (os s) |}).
    destruct (initialize_dc_total B (width b) (height b) s1)
      as (ok & s2 & evs1 & Hinit & Hlog1 & Hi1 & Hok & Hlive1).
    rewrite Hinit. destruct ok; cbn [negb].
    + rewrite (initialize_dc_ok B _ _ s1 Hok) in Hinit.
      injection Hinit as <-.
      match goal with
      | |- context [blit_phase B b ?st] =>
          destruct (blit_phase_total B b st _ _ eq_refl eq_refl)
            as (r & s' & evs & Hblit & Hlog & Hi & Hr)
      end.
      exists r, s', (evs0 ++ evs1 ++ evs). split; [exact Hblit|].
      split; [rewrite Hlog, Hlog1; subst s1; cbn [os]; rewrite Hlog0;
              now rewrite <- !app_assoc|].
      split; [rewrite !inits_app, Hi0, Hi1, Hi; reflexivity|].
      destruct r as [f|].
      * destruct Hr as [Hself Hlive]. rewrite Hself. cbn [self].
        split; [apply built_wf|]. subst s1. cbn [self].
        split; [apply built_cached|].
        intros HB Hown. split; [|discriminate].
        unfold owned in *. rewrite Hself, Hlive.
        cbn [self os].
        intros x Hx. apply built_held. apply built_world_live in Hx.
        destruct Hx as [Hx | Hx]; [exact Hx|].
        rewrite run_plan_release_live in Hx by exact HB.
        exfalso. exact (owned_released s x Hown Hx).
      * destruct Hr as [Hself Hlive]. rewrite Hself.
        split; [now apply wf_uninitialized|]. split; [reflexivity|].
        intros HB Hown.
        assert (Hempty : live (os s') = ∅).
        { rewrite (Hlive HB). cbn [self os].
          apply elem_of_equiv_empty_L. intros x Hx.
          apply elem_of_difference in Hx as [Hx Hnot]. apply Hnot.
          apply built_held. apply built_world_live in Hx.
          destruct Hx as [Hx | Hx]; [exact Hx|].
          rewrite run_plan_release_live in Hx by exact HB.
          exfalso. exact (owned_released s x Hown Hx). }
        split; [|intros _; exact Hempty].
        unfold owned. rewrite Hempty. apply empty_subseteq.
    + exists None, s2, (evs0 ++ evs1). split; [reflexivity|].
      split; [rewrite Hlog1; subst s1; cbn [os]; rewrite Hlog0;
              now rewrite <- !app_assoc|].
      split; [rewrite !inits_app, Hi0, Hi1; reflexivity|].
      split; [now apply wf_uninitialized|]. split; [exact Hok|].
      intros HB Hown.
      specialize (Hlive1 HB eq_refl). subst s1. cbn [os] in Hlive1.
      rewrite run_plan_release_live in Hlive1 by exact HB.
      assert (Hempty : live (os s2) = ∅).
      { apply elem_of_equiv_empty_L. intros x Hx.
        exact (owned_released s x Hown (Hlive1 x Hx)). }
      split; [|intros _; exact Hempty].
      unfold owned. rewrite Hempty. apply empty_subseteq.
Qed.

Lemma valid_or_degenerate (b : bbox) : valid b \/ degenerate b.
Proof.
  destruct b as [[[l t] r] bt]. unfold valid, degenerate, width, height. lia.
Qed.

(** [capture] never raises, whatever the box and the backend. *)
Lemma capture_total (B : backend) (box : option bbox) (s : state) :
  wf (self s) ->
  exists (r : option Frame) (s' : state),
    capture B box s = (Val r, s')
    /\ wf (self s')
    /\ (releases_succeed B -> owned s -> owned s').
Proof.
  intros Hwf. destruct box as [b|].
  - destruct (valid_or_degenerate b) as [Hv | Hd].
    + destruct (capture_valid_total B b s Hv Hwf)
        as (r & s' & evs & Hcap & _ & _ & Hwf' & _ & Hown).
      exists r, s'. split; [exact Hcap|]. split; [exact Hwf'|].
      intros HB Ho. apply (Hown HB Ho).
    + exists None, s. rewrite capture_degenerate by exact Hd.
      split; [reflexivity|]. split; [exact Hwf | auto].
  - exists None, s. split; [reflexivity|]. split; [exact Hwf | auto].
Qed.

Lemma close_total (B : backend) (s : state) :
  exists s' : state,
    close B s = (Val tt, s')
    /\ self s' = set_initialized false (self s)
    /\ live (os s') ⊆ live (os s)
    /\ (releases_succeed B -> live (os s') = live (os s) ∖ held (self s)).
Proof.
  unfold close. rewrite cleanup_run. eexists. split; [reflexivity|].
  cbn [self os]. split; [reflexivity|]. split; [apply run_plan_live|].
  intros HB. now apply run_plan_release_live.
Qed.

(** Every reachable object is well formed. *)
Lemma reachable_wf (B : backend) (s : state) : reachable B s -> wf (self s).
Proof.
  induction 1 as [desktop n l | box s _ IH | s _ IH].
  - now apply wf_uninitialized.
  - destruct (capture_total B box s IH) as (r & s' & Hcap & Hwf' & _).
    now rewrite Hcap.
  - destruct (close_total B s) as (s' & Hclose & Hself & _).
    rewrite Hclose. cbn [snd]. rewrite Hself. now apply wf_uninitialized.
Qed.

(** When the release calls work, every outstanding handle of a reachable
    state is held by the object: nothing has leaked. *)
Lemma reachable_owned (B : backend) (s : state) :
  releases_succeed B -> reachable B s -> owned s.
Proof.
  intros HB. induction 1 as [desktop n l | box s Hs IH | s Hs IH].
  - unfold owned; simpl. set_solver.
  - destruct (capture_total B box s (reachable_wf B s Hs))
      as (r & s' & Hcap & _ & Hown).
    rewrite Hcap. now apply Hown.
  - destruct (close_total B s) as (s' & Hclose & Hself & _ & Hlive).
    rewrite Hclose. cbn [snd]. unfold owned.
    rewrite Hself, (Hlive HB), held_set_initialized. set_solver.
Qed.

(** *** Release order *)

Lemma attempted_ok_events (plan : list (call * handle)) :
  attempted (ok_events plan) = plan.
Proof.
  induction plan as [| [c h] plan IH]; [reflexivity|].
  simpl. f_equal. exact IH.
Qed.

(** C3 (as amended): [_cleanup] never raises and works through the
    handles in the fixed order [srcdc], [memdc], [hwindc], [bmp], which is
    not the reverse of the order [hwindc], [srcdc], [memdc], [bmp] in
    which [_initialize_dc] acquires them.  The calls it makes are an
    initial part of that sequence; when the release calls succeed it is
    the whole sequence and every handle the object holds is released. *)
Theorem cleanup_releases_in_fixed_order (B : backend) (s : state) :
  exists s' : state,
    _cleanup B s = (Val tt, s')
    /\ self s' = set_initialized false (self s)
    /\ attempted (new_log s s') `prefix_of` release_plan (self s)
    /\ live (os s') ⊆ live (os s)
    /\ (releases_succeed B ->
        attempted (new_log s s') = release_plan (self s)
        /\ forall x : handle, x ∈ held (self s) -> x ∉ live (os s'))
    /\ (forall hw hs hm hb : handle,
          hwindc (self s) = Some hw -> hw <> 0%nat ->
          srcdc (self s) = Some hs -> memdc (self s) = Some hm ->
          bmp (self s) = Some hb ->
          release_plan (self s)
          = [(DeleteDC, hs); (DeleteDC, hm); (ReleaseDC, hw);
             (GetHandle, hb); (DeleteObject, hb)]
          /\ (releases_succeed B ->
              released (new_log s s') = [hs; hm; hw; hb])).
Proof.
  rewrite cleanup_run. eexists. split; [reflexivity|]. cbn [self os].
  split; [reflexivity|].
  destruct (run_plan_log B (release_plan (self s)) (os s))
    as (evs & Hlog & Hplan & _).
  rewrite (new_log_app s _ evs) by exact Hlog.
  split; [exact Hplan|]. split; [apply run_plan_live|].
  assert (Hfull : releases_succeed B -> evs = ok_events (release_plan (self s))).
  { intros HB. rewrite run_plan_all_ok in Hlog.
    - simpl in Hlog. now apply app_inv_head in Hlog.
    - intros c h n Hin. apply HB. eapply release_plan_is_release, Hin. }
  split.
  - intros HB. split.
    + rewrite (Hfull HB). apply attempted_ok_events.
    + intros x Hx. rewrite run_plan_release_live by exact HB. set_solver.
  - intros hw hs hm hb Hw Hnz Hs Hm Hb.
    assert (Hrp : release_plan (self s)
                  = [(DeleteDC, hs); (DeleteDC, hm); (ReleaseDC, hw);
                     (GetHandle, hb); (DeleteObject, hb)]).
    { unfold release_plan. rewrite Hw, Hs, Hm, Hb.
      destruct (Nat.eqb_spec hw 0); [contradiction | reflexivity]. }
    split; [exact Hrp|].
    intros HB. rewrite (Hfull HB), Hrp. reflexivity.
Qed.

Lemma cleanup_releases_in_fixed_order_witness :
  exists s' : state,
    _cleanup (always_ok bits0)
      (snd (capture (always_ok bits0) (Some box0) fresh)) = (Val tt, s')
    /\ released (new_log (snd (capture (always_ok bits0) (Some box0) fresh)) s')
       = [2; 3; 1; 4]%nat.
Proof.
  pose (s := snd (capture (always_ok bits0) (Some box0) fresh)).
  destruct (cleanup_releases_in_fixed_order (always_ok bits0) s)
    as (s' & Hrun & _ & _ & _ & _ & Hsession).
  exists s'. split; [exact Hrun|].
  apply (Hsession 1 2 3 4)%nat; try reflexivity.
  - discriminate.
  - intros c n _. reflexivity.
Defined.

(** C3, as stated, fails.  After a successful capture the handles were
    acquired in the order 1, 2, 3, 4 ([hwindc], [srcdc], [memdc], [bmp]);
    [_cleanup] releases them in the order 2, 3, 1, 4, not 4, 3, 2, 1.  And
    when the first release step ([srcdc.DeleteDC]) raises, the remaining
    steps are not attempted: [hwindc] and [bmp] stay outstanding although
    their release calls would have succeeded. *)
Lemma cleanup_order_counterexample :
  let s := snd (capture (always_ok bits0) (Some box0) fresh) in
  let s_ok := snd (_cleanup (always_ok bits0) s) in
  let s_bad := snd (_cleanup (fails_on DeleteDC bits0) s) in
  acquired (log (os s)) = [1; 2; 3; 4]%nat
  /\ released (new_log s s_ok) = [2; 3; 1; 4]%nat
  /\ released (new_log s s_ok) <> rev (acquired (log (os s)))
  /\ new_log s s_bad = [Ev DeleteDC 2 false]
  /\ succeeds (fails_on DeleteDC bits0) ReleaseDC (clock (os s_bad)) = true
  /\ succeeds (fails_on DeleteDC bits0) DeleteObject (clock (os s_bad)) = true
  /\ live (os s_bad) = {[ 1; 2; 3; 4 ]}%nat.
Proof.
  cbv zeta.
  split; [vm_compute; reflexivity|].
  split; [vm_compute; reflexivity|].
  split; [vm_compute; discriminate|].
  split; [vm_compute; reflexivity|].
  split; [reflexivity|]. split; [reflexivity|].
  apply (bool_decide_unpack _). vm_compute. exact I.
Qed.

(** *** [close] *)

Lemma closes_total (B : backend) (n : nat) :
  forall s : state,
    exists s' : state,
      closes B n s = (Val tt, s')
      /\ live (os s') ⊆ live (os s)
      /\ held (self s') = held (self s)
      /\ ((0 < n)%nat -> _initialized (self s') = false)
      /\ (releases_succeed B -> (0 < n)%nat ->
          live (os s') = live (os s) ∖ held (self s)).
Proof.
  induction n as [| n IH]; intros s.
  - exists s. split; [reflexivity|]. split; [done|]. split; [done|].
    split; intros; lia.
  - destruct (close_total B s) as (s1 & Hclose & Hself & Hsub & Hlive).
    destruct (IH s1) as (s' & Hrest & Hsub' & Hheld' & Hini' & Hlive').
    exists s'. cbn [closes]. unfold bind. rewrite Hclose, Hrest.
    split; [reflexivity|]. split; [set_solver|].
    split; [now rewrite Hheld', Hself|].
    split.
    + intros _. destruct n as [| n].
      * cbn in Hrest. injection Hrest as <-. now rewrite Hself.
      * apply Hini'. lia.
    + intros HB _. destruct n as [| n].
      * cbn in Hrest. injection Hrest as <-. now apply Hlive.
      * rewrite Hlive' by (auto; lia). rewrite (Hlive HB), Hself.
        rewrite held_set_initialized. set_solver.
Qed.

(** C4 (as amended): any number of [close] calls return normally,
    whatever the backend does, and never add an outstanding handle.  When
    the release calls succeed, one [close] is enough to release every
    handle the object holds, and for an object reached through [capture]
    and [close] calls no native resource remains outstanding. *)
Theorem close_never_raises_releases_held (B : backend) (s : state) (n : nat) :
  exists s' : state,
    closes B n s = (Val tt, s')
    /\ live (os s') ⊆ live (os s)
    /\ ((0 < n)%nat -> _initialized (self s') = false)
    /\ (releases_succeed B -> (0 < n)%nat ->
        (forall x : handle, x ∈ held (self s) -> x ∉ live (os s'))
        /\ (reachable B s -> live (os s') = ∅)).
Proof.
  destruct (closes_total B n s) as (s' & Hrun & Hsub & _ & Hini & Hlive).
  exists s'. split; [exact Hrun|]. split; [exact Hsub|]. split; [exact Hini|].
  intros HB Hn. rewrite (Hlive HB Hn). split.
  - intros x Hx. set_solver.
  - intros Hreach. pose proof (reachable_owned B s HB Hreach) as Hown.
    unfold owned in Hown. set_solver.
Qed.

Lemma close_never_raises_releases_held_witness :
  exists s' : state,
    closes (always_ok bits0) 3
      (snd (capture (always_ok bits0) (Some box0) fresh)) = (Val tt, s')
    /\ live (os s') = ∅.
Proof.
  pose (s := snd (capture (always_ok bits0) (Some box0) fresh)).
  destruct (close_never_raises_releases_held (always_ok bits0) s 3)
    as (s' & Hrun & _ & _ & Hrel).
  exists s'. split; [exact Hrun|].
  apply Hrel.
  - intros c n _. reflexivity.
  - lia.
  - apply reachable_capture. apply (reachable_init _ 0 0 []).
Defined.

(** C4, as stated, fails.  On a backend whose [DeleteDC] raises, an
    object that went through one successful capture holds four handles;
    [close], called three times, returns normally each time and releases
    none of them, not even [hwindc] and [bmp], whose release calls would
    succeed. *)
Lemma close_leaks_counterexample :
  let B := fails_on DeleteDC bits0 in
  let s := snd (capture B (Some box0) fresh) in
  reachable B s
  /\ acquired (log (os s)) = [1; 2; 3; 4]%nat
  /\ fst (closes B 3 s) = Val tt
  /\ live (os (snd (closes B 3 s))) = {[ 1; 2; 3; 4 ]}%nat
  /\ live (os (snd (closes B 3 s))) <> ∅
  /\ (forall k : nat,
        succeeds B ReleaseDC k = true /\ succeeds B DeleteObject k = true).
Proof.
  cbv zeta.
  split; [apply reachable_capture; apply (reachable_init _ 0 0 [])|].
  split; [vm_compute; reflexivity|].
  split; [vm_compute; reflexivity|].
  split; [apply (bool_decide_unpack _); vm_compute; exact I|].
  split; [apply (bool_decide_unpack _); vm_compute; exact I|].
  intros k. split; reflexivity.
Qed.

(** *** Failure of the blit or the readback *)

Lemma uninitialized_not_cached (o : obj) (b : bbox) :
  _initialized o = false -> is_cached o b = false.
Proof. intros H. unfold is_cached. now rewrite H. Qed.

(** A cached session whose blit or readback fails: [capture] returns
    [None] after [_cleanup] ran on the untouched object. *)
Lemma capture_blit_failure (B : backend) (b : bbox) (s : state) :
  valid b -> wf (self s) -> is_cached (self s) b = true ->
  blit_fails B b (clock (os s)) ->
  exists pre : list event,
    capture B (Some b) s
    = (Val None,
       {| self := set_initialized false (self s);
          os := run_plan B (release_plan (self s)) (logged (os s) pre) |}).
Proof.
  intros Hv Hwf Hc Hfail.
  pose proof (is_cached_initialized _ _ Hc) as Hini.
  destruct (wf_session _ Hwf Hini)
    as (hw & hs & hm & hb & _ & _ & _ & Hm & Hb & _).
  rewrite capture_steps by exact Hv.
  rewrite release_phase_cached by exact Hc.
  rewrite build_phase_skip by exact Hini. cbn [negb].
  destruct (blit_phase_spec B b s hm hb Hm Hb)
    as [[Hworks _] | [_ (pre & _ & Hrun)]].
  - now apply blit_works_not_fails in Hworks.
  - exists pre. exact Hrun.
Qed.

(** C5 (as amended): [capture] on a valid box never propagates an error.
    Whenever it returns [None] the manager is left uninitialized, so the
    next call with a valid box runs [_initialize_dc] again, exactly once,
    and holds a session for its box if it returns a frame.  In particular,
    when the blit or the readback of a cached session fails, [capture]
    returns [None] after running [_cleanup]; the handles of the session
    are then no longer outstanding provided the release calls
    themselves succeed, and in that case a reachable object that returns
    [None] leaves no native resource outstanding at all. *)
Theorem capture_failure_self_heals (B : backend) (s : state) (b : bbox) :
  valid b -> wf (self s) ->
  exists (r : option Frame) (s1 : state),
    capture B (Some b) s = (Val r, s1)
    /\ (r = None ->
        _initialized (self s1) = false
        /\ forall b2 : bbox, valid b2 ->
             exists (r2 : option Frame) (s2 : state),
               capture B (Some b2) s1 = (Val r2, s2)
               /\ inits (new_log s1 s2) = 1%nat
               /\ (is_Some r2 -> is_cached (self s2) b2 = true))
    /\ (is_cached (self s) b = true -> blit_fails B b (clock (os s)) ->
        r = None
        /\ self s1 = set_initialized false (self s)
        /\ live (os s1) ⊆ live (os s)
        /\ (releases_succeed B ->
            forall x : handle, x ∈ held (self s) -> x ∉ live (os s1)))
    /\ (releases_succeed B -> reachable B s -> r = None ->
        live (os s1) = ∅).
Proof.
  intros Hv Hwf.
  destruct (capture_valid_total B b s Hv Hwf)
    as (r & s1 & evs & Hcap & _ & _ & Hwf1 & Hr & Hown).
  exists r, s1. split; [exact Hcap|].
  split; [|split;
           [|intros HB Hreach;
             apply (Hown HB (reachable_owned B s HB Hreach))]].
  - intros ->. split; [exact Hr|].
    intros b2 Hv2.
    destruct (capture_valid_total B b2 s1 Hv2 Hwf1)
      as (r2 & s2 & evs2 & Hcap2 & Hlog2 & Hi2 & _ & Hr2 & _).
    exists r2, s2. split; [exact Hcap2|].
    rewrite (new_log_app s1 s2 evs2 Hlog2), Hi2.
    rewrite (uninitialized_not_cached _ b2 Hr).
    split; [reflexivity|].
    intros [f ->]. exact Hr2.
  - intros Hc Hfail.
    destruct (capture_blit_failure B b s Hv Hwf Hc Hfail) as (pre & Hrun).
    rewrite Hrun in Hcap. injection Hcap as <- <-.
    split; [reflexivity|]. cbn [self os]. split; [reflexivity|].
    split; [apply (run_plan_live B _ (logged (os s) pre))|].
    intros HB x Hx. rewrite run_plan_release_live by exact HB. set_solver.
Qed.

Lemma capture_failure_self_heals_witness :
  let B := fails_at BitBlt 8 bits0 in
  let s := snd (capture B (Some box0) fresh) in
  exists s1 : state,
    capture B (Some box0) s = (Val None, s1)
    /\ self s1 = set_initialized false (self s)
    /\ (1%nat ∉ live (os s1))
    /\ exists (r2 : option Frame) (s2 : state),
         capture B (Some box0) s1 = (Val r2, s2)
         /\ inits (new_log s1 s2) = 1%nat.
Proof.
  cbv zeta.
  destruct (capture_failure_self_heals (fails_at BitBlt 8 bits0)
              (snd (capture (fails_at BitBlt 8 bits0) (Some box0) fresh)) box0)
    as (r & s1 & Hcap & Hnone & Hfail & _).
  - split; reflexivity.
  - intros _. vm_compute. repeat split.
  - destruct Hfail as (-> & Hself & _ & Hrel);
      [vm_compute; reflexivity | left; vm_compute; reflexivity |].
    exists s1. split; [exact Hcap|]. split; [exact Hself|].
    split.
    + apply Hrel.
      * intros c n [Hc | ->];
          [destruct c; try discriminate Hc; reflexivity | reflexivity].
      * apply (bool_decide_unpack _). vm_compute. exact I.
    + destruct Hnone as [_ Hnext]; [reflexivity|].
      destruct (Hnext box0) as (r2 & s2 & Hcap2 & Hi2 & _);
        [split; reflexivity|].
      exists r2, s2. split; [exact Hcap2 | exact Hi2].
Defined.

(** C5, as stated, fails.  On a backend whose [DeleteDC] raises, the
    first capture builds a session (handles 1 to 4); the blit of the
    second capture fails; [capture] returns [None] and leaves the manager
    uninitialized, but all four handles of the session are still
    outstanding, [hwindc] and [bmp] included, whose release calls would
    succeed. *)
Lemma capture_failure_leaks_counterexample :
  let B := worn_out 8 bits0 in
  let s := snd (capture B (Some box0) fresh) in
  let s1 := snd (capture B (Some box0) s) in
  reachable B s
  /\ is_cached (self s) box0 = true
  /\ blit_fails B box0 (clock (os s))
  /\ fst (capture B (Some box0) s) = Val None
  /\ _initialized (self s1) = false
  /\ held (self s) = {[ 1; 2; 3; 4 ]}%nat
  /\ live (os s1) = {[ 1; 2; 3; 4 ]}%nat
  /\ (forall k : nat,
        succeeds B ReleaseDC k = true /\ succeeds B DeleteObject k = true).
Proof.
  cbv zeta.
  split; [apply reachable_capture; apply (reachable_init _ 0 0 [])|].
  split; [vm_compute; reflexivity|].
  split; [left; vm_compute; reflexivity|].
  split; [vm_compute; reflexivity|].
  split; [vm_compute; reflexivity|].
  split; [apply (bool_decide_unpack _); vm_compute; exact I|].
  split; [apply (bool_decide_unpack _); vm_compute; exact I|].
  intros k. split; reflexivity.
Qed.

(** *** Single-shot window capture *)

Arguments new_log s s' : simpl never.

(** Decide the outcome of the next native call in the goal. *)
Ltac next_call B :=
  match goal with
  | |- context [succeeds B ?c ?n] =>
      let E := fresh "Hcall" in destruct (succeeds B c n) eqn:E; cbn
  end.

(** X12: [capture_window] never raises.  When it returns a frame, the
    four handles it acquired ([hwindc], [srcdc], [memdc], [bmp], in this
    order) have all been released, in the order [srcdc], [memdc],
    [hwindc], [bmp], and none of them is outstanding any more. *)
Theorem capture_window_success_releases_all
    (B : backend) (convert : list Z -> Z -> Z -> res Frame)
    (hwnd : handle) (window_rect : res bbox) (s : state) :
  exists (r : option Frame) (s' : state),
    capture_window B convert hwnd window_rect s = (Val r, s')
    /\ self s' = self s
    /\ (forall f : Frame, r = Some f ->
        let k := clock (os s) in
        acquired (new_log s s') = [k + 1; k + 2; k + 3; k + 4]%nat
        /\ released (new_log s s') = [k + 2; k + 3; k + 1; k + 4]%nat
        /\ (forall h : handle, h ∈ acquired (new_log s s') -> h ∉ live (os s'))
        /\ exists rect : bbox,
             window_rect = Val rect
             /\ convert (bitmap_bits B (k + 7)) (height rect) (width rect)
                = Val f).
Proof.
  destruct s as [o [k lv lg]].
  unfold capture_window, try_except, bind, lift_res, acquire, invoke,
    release, get_bitmap_bits, ret.
  destruct window_rect as [rect|]; cbn;
    [|eexists _, _; split; [reflexivity|]; split; [reflexivity|]; discriminate].
  do 8 (next_call B;
        [|eexists _, _; split; [reflexivity|]; split; [reflexivity|];
          discriminate]).
  replace (S (S (S (S (S (S (S k))))))) with (k + 7)%nat by lia.
  destruct (convert (bitmap_bits B (k + 7)) (height rect) (width rect))
    as [img|] eqn:Hconv; cbn;
    [|eexists _, _; split; [reflexivity|]; split; [reflexivity|];
      discriminate].
  do 5 (next_call B;
        [|eexists _, _; split; [reflexivity|]; split; [reflexivity|];
          discriminate]).
  eexists _, _. split; [reflexivity|]. split; [reflexivity|].
  intros f [= <-]. cbv zeta. cbn [os clock self log live].
  erewrite new_log_app by (cbn [os log]; rewrite <- !app_assoc; reflexivity).
  replace (S k) with (k + 1)%nat by lia.
  replace (S (k + 1)) with (k + 2)%nat by lia.
  replace (S (k + 2)) with (k + 3)%nat by lia.
  replace (S (k + 3)) with (k + 4)%nat by lia.
  split; [reflexivity|]. split; [reflexivity|].
  split; [|exists rect; split; [reflexivity | exact Hconv]].
  intros h Hh. cbn in Hh. set_solver.
Qed.

(** X13: [capture_window] has no cleanup on its error path: whenever it
    returns [None] although [GetWindowDC] had succeeded, at least one of
    the handles it acquired is still outstanding afterwards. *)
Theorem capture_window_failure_leaks
    (B : backend) (convert : list Z -> Z -> Z -> res Frame)
    (hwnd : handle) (rect : bbox) (s s' : state) :
  succeeds B GetWindowDC (clock (os s)) = true ->
  capture_window B convert hwnd (Val rect) s = (Val None, s') ->
  exists h : handle, h ∈ acquired (new_log s s') /\ h ∈ live (os s').
Proof.
  destruct s as [o [k lv lg]].
  unfold capture_window, try_except, bind, lift_res, acquire, invoke,
    release, get_bitmap_bits, ret. cbn. intros -> . cbn.
  assert (Hstep : forall (evs : list event) (lv' : gset nat) (n : nat) (h : handle),
             h ∈ acquired evs -> h ∈ lv' ->
             exists h0 : handle,
               h0 ∈ acquired
                      (new_log {| self := o;
                                  os := {| clock := k; live := lv; log := lg |} |}
                         {| self := o;
                            os := {| clock := n; live := lv';
                                     log := lg ++ evs |} |})
               /\ h0 ∈ lv').
  { intros evs lv' n h Ha Hl. exists h.
    rewrite (new_log_app _ _ evs) by reflexivity. split; assumption. }
  do 7 (next_call B;
        [|intros [= <-]; rewrite <- ?app_assoc;
          apply (Hstep _ _ _ (S k)); [cbn; set_solver | set_solver]]).
  destruct (convert _ _ _) as [img|]; cbn;
    [|intros [= <-]; rewrite <- ?app_assoc;
      apply (Hstep _ _ _ (S k)); [cbn; set_solver | set_solver]].
  do 3 (next_call B;
        [|intros [= <-]; rewrite <- ?app_assoc;
          apply (Hstep _ _ _ (S k)); [cbn; set_solver | set_solver by lia]]).
  do 2 (next_call B;
        [|intros [= <-]; rewrite <- ?app_assoc;
          apply (Hstep _ _ _ (S (S (S (S k)))));
          [cbn; set_solver | set_solver by lia]]).
  discriminate.
Qed.

Lemma capture_window_failure_leaks_witness :
  exists h : handle,
    h ∈ acquired
          (new_log fresh
             (snd (capture_window (fails_on BitBlt bits0) convert_bgra 0
                     (Val box0) fresh)))
    /\ h ∈ live (os (snd (capture_window (fails_on BitBlt bits0) convert_bgra 0
                            (Val box0) fresh))).
Proof.
  apply (capture_window_failure_leaks (fails_on BitBlt bits0) convert_bgra 0 box0);
    reflexivity.
Defined.

(** *** More on the session life cycle *)

(** X14: [_initialize_dc] is all or nothing.  It never raises and calls
    [GetWindowDC] exactly once; it reports [True] exactly when all six of
    its native calls succeed, and then the object holds four new handles
    and is initialized for the given size; when it reports [False] the
    object is left uninitialized and, if the release calls work, nothing
    that it acquired on the way is still outstanding. *)
Theorem initialize_dc_all_or_nothing
    (B : backend) (w h : Z) (s : state) :
  exists (ok : bool) (s' : state),
    _initialize_dc B w h s = (Val ok, s')
    /\ inits (new_log s s') = 1%nat
    /\ (ok = true <-> build_succeeds B (clock (os s)))
    /\ (ok = true ->
        self s' = built (self s) (clock (os s)) w h
        /\ acquired (new_log s s')
           = [clock (os s) + 1; clock (os s) + 2;
              clock (os s) + 3; clock (os s) + 4]%nat
        /\ released (new_log s s') = [])
    /\ (ok = false ->
        _initialized (self s') = false
        /\ (releases_succeed B -> live (os s') ⊆ live (os s))).
Proof.
  destruct (initialize_dc_total B w h s)
    as (ok & s' & evs & Hrun & Hlog & Hi & Hok & Hlive).
  exists ok, s'. split; [exact Hrun|].
  rewrite (new_log_app s s' evs Hlog). split; [exact Hi|].
  destruct ok.
  - split; [tauto|]. split; [|discriminate].
    intros _. rewrite (initialize_dc_ok B w h s Hok) in Hrun.
    injection Hrun as <-. cbn [self os built_world log] in *.
    apply app_inv_head in Hlog. subst evs.
    repeat split.
  - split.
    + split; [discriminate|]. intros Hb.
      rewrite (initialize_dc_ok B w h s Hb) in Hrun. discriminate.
    + split; [discriminate|]. intros _. split; [exact Hok|].
      intros HB. now apply Hlive.
Qed.

Lemma bgra2bgr_pixels (k : nat) :
  forall bits : list Z,
    length bits = (4 * k)%nat ->
    length (bgra2bgr bits) = (3 * k)%nat
    /\ forall i j : nat,
         (i < k)%nat -> (j < 3)%nat ->
         bgra2bgr bits !! (3 * i + j)%nat = bits !! (4 * i + j)%nat.
Proof.
  induction k as [| k IH]; intros bits Hlen.
  - destruct bits; [|discriminate]. split; [reflexivity|]. intros; lia.
  - destruct bits as [| b [| g [| r [| a rest]]]]; try (simpl in Hlen; lia).
    destruct (IH rest) as [IHlen IHnth]; [simpl in Hlen; lia|].
    cbn [bgra2bgr]. split; [simpl; lia|].
    intros i j Hi Hj. destruct i as [| i].
    + destruct j as [| [| [| j]]]; try lia; reflexivity.
    + replace (3 * S i + j)%nat with (S (S (S (3 * i + j)))) by lia.
      replace (4 * S i + j)%nat with (S (S (S (S (4 * i + j))))) by lia.
      cbn. apply IHnth; lia.
Qed.

Lemma release_phase_log (B : backend) (b : bbox) (s : state) :
  exists (s1 : state) (evs : list event),
    release_phase B b s = (Val tt, s1)
    /\ log (os s1) = log (os s) ++ evs
    /\ clock (os s1) = (clock (os s) + length evs)%nat.
Proof.
  destruct (is_cached (self s) b) eqn:Hc.
  - exists s, []. rewrite release_phase_cached by exact Hc.
    split; [reflexivity|]. rewrite app_nil_r.
    split; [reflexivity | simpl; lia].
  - rewrite release_phase_uncached by exact Hc.
    destruct (run_plan_log B (release_plan (self s)) (os s))
      as (evs & Hlog & _ & Hclock).
    eexists _, evs. split; [reflexivity|]. cbn [os]. split; assumption.
Qed.

Lemma build_phase_log (B : backend) (b : bbox) (s s' : state) :
  build_phase B b s = (Val true, s') ->
  exists evs : list event,
    log (os s') = log (os s) ++ evs
    /\ clock (os s') = (clock (os s) + length evs)%nat.
Proof.
  destruct (_initialized (self s)) eqn:Hi.
  - rewrite build_phase_skip by exact Hi. intros [= <-]. exists [].
    rewrite app_nil_r. split; [reflexivity | simpl; lia].
  - rewrite build_phase_run by exact Hi. intros Hrun.
    destruct (initialize_dc_total B (width b) (height b) s)
      as (ok & s1 & evs & Hrun' & _ & _ & Hok & _).
    rewrite Hrun in Hrun'. injection Hrun' as <- <-.
    rewrite (initialize_dc_ok B _ _ s Hok) in Hrun. injection Hrun as <-.
    exists (build_events (clock (os s))). cbn [os built_world log clock].
    split; [reflexivity | simpl; lia].
Qed.

(** A frame comes out of the [try] block of [capture] only when the blit
    and the readback both worked, and then it is the frame of the bytes
    that readback returned. *)
Lemma blit_phase_readback (B : backend) (b : bbox) (s s' : state) (f : Frame) :
  blit_phase B b s = (Val (Some f), s') ->
  exists hm hb : handle,
    memdc (self s) = Some hm /\ bmp (self s) = Some hb
    /\ blit_works B b (clock (os s))
    /\ f = frame_of B b (S (clock (os s)))
    /\ s' = {| self := self s;
               os := logged (os s)
                       [Ev BitBlt hm true; Ev GetBitmapBits hb true] |}.
Proof.
  destruct (memdc (self s)) as [m|] eqn:Hm;
    [destruct (bmp (self s)) as [hb|] eqn:Hb|].
  - destruct (blit_phase_spec B b s m hb Hm Hb)
      as [[Hworks Hok] | [_ (pre & _ & Hfail)]].
    + rewrite Hok. intros [= <- <-]. exists m, hb.
      repeat split; try assumption; apply Hworks.
    + rewrite Hfail. discriminate.
  - unfold blit_phase, try_except, bind, get_self, attr, raise, invoke, ret.
    cbn [self]. rewrite Hm, Hb.
    destruct (succeeds B BitBlt (clock (os s))); rewrite cleanup_run;
      discriminate.
  - unfold blit_phase, try_except, bind, get_self, attr, raise, ret.
    cbn [self]. rewrite Hm. rewrite cleanup_run. discriminate.
Qed.

(** X15: every frame [capture] returns, from any state and on any
    backend, is the frame of a valid box, made from the buffer that this
    very call read back.  The call ends with a successful [BitBlt] on
    [memdc] followed by a successful [GetBitmapBits] on [bmp]; that
    readback is the call's last native call, number [n] (after the
    [clock (os s)] calls made before this [capture] and the [pre] and
    blit calls of this one), and running it in the world the blit left
    yields the buffer [bits = bitmap_bits B n] and the final state.  The
    buffer holds four bytes per pixel of the box; the frame has shape
    [(height, width, 3)] and holds exactly three bytes per pixel, the
    blue, green and red bytes of [bits], the fourth (alpha) byte of every
    pixel being dropped. *)
Theorem capture_frame_shape
    (B : backend) (box : option bbox) (s s' : state) (f : Frame) :
  capture B box s = (Val (Some f), s') ->
  exists (b : bbox) (hm hb : handle) (pre : list event) (n : nat)
         (bits : list Z),
    box = Some b /\ valid b
    /\ memdc (self s') = Some hm /\ bmp (self s') = Some hb
    /\ new_log s s' = pre ++ [Ev BitBlt hm true; Ev GetBitmapBits hb true]
    /\ n = (clock (os s) + length pre + 1)%nat
    /\ get_bitmap_bits B hb
         {| self := self s';
            os := {| clock := n; live := live (os s');
                     log := log (os s) ++ pre ++ [Ev BitBlt hm true] |} |}
       = (Val bits, s')
    /\ bits = bitmap_bits B n
    /\ Z.of_nat (length bits) = height b * width b * 4
    /\ shape f = (height b, width b, 3)
    /\ pixels f = bgra2bgr bits
    /\ Z.of_nat (length (pixels f)) = height b * width b * 3
    /\ forall i j : nat,
         Z.of_nat i < height b * width b -> (j < 3)%nat ->
         pixels f !! (3 * i + j)%nat = bits !! (4 * i + j)%nat.
Proof.
  destruct box as [b|]; [|discriminate].
  destruct (valid_or_degenerate b) as [Hv | Hd];
    [|rewrite capture_degenerate by exact Hd; discriminate].
  rewrite capture_steps by exact Hv.
  destruct (release_phase_log B b s) as (s1 & evs1 & -> & Hlog1 & Hclock1).
  destruct (build_phase B b s1) as [[[|]|] s2] eqn:Hbuild; cbn [negb];
    try discriminate.
  destruct (build_phase_log B b s1 s2 Hbuild) as (evs2 & Hlog2 & Hclock2).
  intros Hblit.
  destruct (blit_phase_readback B b s2 s' f Hblit)
    as (hm & hb & Hm & Hb & (_ & Hread & Hfit) & -> & ->).
  exists b, hm, hb, (evs1 ++ evs2), (S (clock (os s2))),
    (bitmap_bits B (S (clock (os s2)))).
  cbn [self os logged live log clock frame_of shape pixels].
  split; [reflexivity|]. split; [exact Hv|].
  split; [exact Hm|]. split; [exact Hb|].
  split.
  { apply new_log_app. cbn [os logged log]. rewrite Hlog2, Hlog1.
    now rewrite <- !app_assoc. }
  split; [rewrite length_app; lia|].
  split.
  { unfold get_bitmap_bits. cbn [self os clock live log]. rewrite Hread.
    unfold logged. rewrite Hlog2, Hlog1, <- !app_assoc. cbn [length app].
    now replace (clock (os s2) + 2)%nat with (S (S (clock (os s2)))) by lia. }
  split; [reflexivity|]. split; [exact Hfit|].
  split; [reflexivity|]. split; [reflexivity|].
  destruct Hv as [Hw Hh].
  destruct (bgra2bgr_pixels (Z.to_nat (height b * width b))
              (bitmap_bits B (S (clock (os s2))))) as [Hlen Hnth]; [nia|].
  split; [rewrite Hlen; nia|].
  intros i j Hi Hj. apply Hnth; [nia | exact Hj].
Qed.

Lemma capture_frame_shape_witness :
  exists (b : bbox) (hm hb : handle) (pre : list event) (n : nat)
         (bits : list Z),
    Some box0 = Some b /\ valid b
    /\ memdc (self (snd (capture (always_ok bits0) (Some box0) fresh)))
       = Some hm
    /\ bmp (self (snd (capture (always_ok bits0) (Some box0) fresh)))
       = Some hb
    /\ new_log fresh (snd (capture (always_ok bits0) (Some box0) fresh))
       = pre ++ [Ev BitBlt hm true; Ev GetBitmapBits hb true]
    /\ n = (clock (os fresh) + length pre + 1)%nat
    /\ get_bitmap_bits (always_ok bits0) hb
         {| self := self (snd (capture (always_ok bits0) (Some box0) fresh));
            os := {| clock := n;
                     live := live (os (snd (capture (always_ok bits0)
                                              (Some box0) fresh)));
                     log := log (os fresh) ++ pre ++ [Ev BitBlt hm true] |} |}
       = (Val bits, snd (capture (always_ok bits0) (Some box0) fresh))
    /\ bits = bitmap_bits (always_ok bits0) n
    /\ Z.of_nat (length bits) = height b * width b * 4
    /\ shape {| shape := (1, 2, 3); pixels := [10; 20; 30; 40; 50; 60] |}
       = (height b, width b, 3)
    /\ pixels {| shape := (1, 2, 3); pixels := [10; 20; 30; 40; 50; 60] |}
       = bgra2bgr bits
    /\ Z.of_nat (length (pixels {| shape := (1, 2, 3);
                                   pixels := [10; 20; 30; 40; 50; 60] |}))
       = height b * width b * 3
    /\ forall i j : nat,
         Z.of_nat i < height b * width b -> (j < 3)%nat ->
         pixels {| shape := (1, 2, 3); pixels := [10; 20; 30; 40; 50; 60] |}
           !! (3 * i + j)%nat
         = bits !! (4 * i + j)%nat.
Proof.
  apply (capture_frame_shape (always_ok bits0) (Some box0) fresh
           (snd (capture (always_ok bits0) (Some box0) fresh))
           {| shape := (1, 2, 3); pixels := [10; 20; 30; 40; 50; 60] |}).
  vm_compute. reflexivity.
Defined.

(** X16: [_cleanup] never clears the handle fields, so [close] is not a
    no-op the second time: with working release calls, a second [close]
    issues exactly the release calls of the first one again, on the same
    handles, and changes nothing that is outstanding. *)
Theorem close_twice_repeats_releases (B : backend) (s : state) :
  releases_succeed B ->
  exists s1 s2 : state,
    close B s = (Val tt, s1)
    /\ close B s1 = (Val tt, s2)
    /\ self s1 = set_initialized false (self s)
    /\ self s2 = self s1
    /\ attempted (new_log s s1) = release_plan (self s)
    /\ attempted (new_log s1 s2) = release_plan (self s)
    /\ released (new_log s1 s2) = released (new_log s s1)
    /\ live (os s2) = live (os s1).
Proof.
  intros HB. unfold close.
  rewrite (cleanup_releases B s HB).
  eexists _, _. split; [reflexivity|].
  rewrite (cleanup_releases B _ HB). split; [reflexivity|].
  cbn [self os clock live log].
  split; [reflexivity|]. split; [reflexivity|].
  rewrite !(new_log_app _ _ (ok_events (release_plan (self s))))
    by reflexivity.
  rewrite attempted_ok_events.
  repeat split. rewrite held_set_initialized. set_solver.
Qed.

Lemma close_twice_repeats_releases_witness :
  exists s1 s2 : state,
    close (always_ok bits0)
      (snd (capture (always_ok bits0) (Some box0) fresh)) = (Val tt, s1)
    /\ close (always_ok bits0) s1 = (Val tt, s2)
    /\ released (new_log s1 s2) = released
         (new_log (snd (capture (always_ok bits0) (Some box0) fresh)) s1).
Proof.
  destruct (close_twice_repeats_releases (always_ok bits0)
              (snd (capture (always_ok bits0) (Some box0) fresh)))
    as (s1 & s2 & H1 & H2 & _ & _ & _ & _ & Hrel & _).
  - intros c n _. reflexivity.
  - exists s1, s2. repeat split; assumption.
Defined.

(** What a successful [capture] leaves behind. *)
Lemma capture_some_state (B : backend) (b : bbox) (s s' : state) (f : Frame) :
  valid b -> wf (self s) ->
  capture B (Some b) s = (Val (Some f), s') ->
  _initialized (self s') = true
  /\ ((self s' = self s /\ live (os s') = live (os s)
       /\ _initialized (self s) = true)
      \/ (held (self s')
          = {[ (clock (run_plan B (release_plan (self s)) (os s)) + 1)%nat;
               (clock (run_plan B (release_plan (self s)) (os s)) + 2)%nat;
               (clock (run_plan B (release_plan (self s)) (os s)) + 3)%nat;
               (clock (run_plan B (release_plan (self s)) (os s)) + 4)%nat ]}
          /\ live (os s')
             = held (self s')
               ∪ live (run_plan B (release_plan (self s)) (os s)))).
Proof.
  intros Hv Hwf. rewrite capture_steps by exact Hv.
  destruct (is_cached (self s) b) eqn:Hc.
  - pose proof (is_cached_initialized _ _ Hc) as Hini.
    destruct (wf_session _ Hwf Hini)
      as (hw & hs & hm & hb & _ & _ & _ & Hm & Hb & _).
    rewrite release_phase_cached by exact Hc.
    rewrite build_phase_skip by exact Hini. cbn [negb].
    destruct (blit_phase_total B b s hm hb Hm Hb)
      as (r & s1 & evs & Hblit & _ & _ & Hr).
    rewrite Hblit. intros [= -> ->]. destruct Hr as [Hself Hlive].
    rewrite Hself. split; [exact Hini|]. left. repeat split; assumption.
  - rewrite release_phase_uncached by exact Hc.
    rewrite build_phase_run by reflexivity.
    set (s1 := {| self := set_last_bbox b (set_initialized false (self s));
                  os := run_plan B (release_plan (self s)) (os s) |}).
    destruct (initialize_dc_total B (width b) (height b) s1)
      as (ok & s2 & evs1 & Hinit & _ & _ & Hok & _).
    rewrite Hinit. destruct ok; cbn [negb]; [|discriminate].
    rewrite (initialize_dc_ok B _ _ s1 Hok) in Hinit. injection Hinit as <-.
    match goal with
    | |- blit_phase B b ?st = _ -> _ =>
        destruct (blit_phase_total B b st _ _ eq_refl eq_refl)
          as (r & s3 & evs & Hblit & _ & _ & Hr)
    end.
    rewrite Hblit. intros [= -> ->]. destruct Hr as [Hself Hlive].
    rewrite Hself, Hlive. cbn [self os]. split; [reflexivity|]. right.
    subst s1. cbn [self os].
    assert (Hheld : held (built (set_last_bbox b (set_initialized false (self s)))
                           (clock (run_plan B (release_plan (self s)) (os s)))
                           (width b) (height b))
                    = {[ (clock (run_plan B (release_plan (self s)) (os s)) + 1)%nat;
                         (clock (run_plan B (release_plan (self s)) (os s)) + 2)%nat;
                         (clock (run_plan B (release_plan (self s)) (os s)) + 3)%nat;
                         (clock (run_plan B (release_plan (self s)) (os s)) + 4)%nat ]}).
    { apply set_eq. intros x. rewrite built_held. set_solver. }
    split; [exact Hheld|].
    apply set_eq. intros x. rewrite built_world_live, Hheld. set_solver.
Qed.

(** X17: at most one session is alive, and nothing leaks while the
    release calls work: in every state reached from a new object through
    [capture] and [close] calls, the outstanding handles are exactly the
    handles held by the object when it is initialized, and there is none
    when it is not. *)
Theorem outstanding_is_current_session (B : backend) (s : state) :
  releases_succeed B ->
  reachable B s ->
  live (os s) = (if _initialized (self s) then held (self s) else ∅).
Proof.
  intros HB. induction 1 as [desktop n l | box s Hs IH | s Hs IH].
  - reflexivity.
  - pose proof (reachable_wf B s Hs) as Hwf.
    pose proof (reachable_owned B s HB Hs) as Hown.
    destruct box as [b|]; [|exact IH].
    destruct (valid_or_degenerate b) as [Hv | Hd];
      [|rewrite capture_degenerate by exact Hd; exact IH].
    destruct (capture_valid_total B b s Hv Hwf)
      as (r & s' & evs & Hcap & _ & _ & _ & Hr & Hlive).
    destruct (Hlive HB Hown) as [_ Hempty].
    rewrite Hcap. cbn [snd]. destruct r as [f|].
    + destruct (capture_some_state B b s s' f Hv Hwf Hcap) as [Hini Hcase].
      rewrite Hini. destruct Hcase as [(Hself & Hl & Hini0) | (_ & Hl)].
      * rewrite Hself, Hl, IH, Hini0. reflexivity.
      * rewrite Hl, (run_plan_release_live B _ _ HB).
        apply set_eq. intros x. split; [|set_solver].
        intros Hx. apply elem_of_union in Hx as [Hx | Hx]; [exact Hx|].
        exfalso. exact (owned_released s x Hown Hx).
    + rewrite Hr. now apply Hempty.
  - destruct (close_total B s) as (s' & Hclose & Hself & _ & Hlive).
    rewrite Hclose. cbn [snd]. rewrite Hself. cbn [_initialized set_initialized].
    rewrite (Hlive HB). apply elem_of_equiv_empty_L. intros x Hx.
    exact (owned_released s x (reachable_owned B s HB Hs) Hx).
Qed.

Lemma outstanding_is_current_session_witness :
  live (os (snd (capture (always_ok bits0) (Some box0) fresh)))
  = held (self (snd (capture (always_ok bits0) (Some box0) fresh))).
Proof.
  apply (outstanding_is_current_session (always_ok bits0)
           (snd (capture (always_ok bits0) (Some box0) fresh))).
  - intros c n _. reflexivity.
  - apply reachable_capture. apply (reachable_init _ 0 0 []).
Defined.

(** X18: [close] invalidates the session: after a [close], the next
    [capture] with a valid box, whatever the box and the backend, returns
    normally and runs [_initialize_dc] exactly once; if it returns a
    frame, the object holds a session for that box again. *)
Theorem capture_after_close_rebuilds (B : backend) (s : state) (b : bbox) :
  valid b ->
  exists (s1 : state) (r : option Frame) (s2 : state),
    close B s = (Val tt, s1)
    /\ capture B (Some b) s1 = (Val r, s2)
    /\ inits (new_log s1 s2) = 1%nat
    /\ match r with
       | Some _ => is_cached (self s2) b = true
       | None => _initialized (self s2) = false
       end.
Proof.
  intros Hv.
  destruct (close_total B s) as (s1 & Hclose & Hself & _).
  assert (Hini : _initialized (self s1) = false) by now rewrite Hself.
  destruct (capture_valid_total B b s1 Hv (wf_uninitialized _ Hini))
    as (r & s2 & evs & Hcap & Hlog & Hi & _ & Hr & _).
  exists s1, r, s2. split; [exact Hclose|]. split; [exact Hcap|].
  rewrite (new_log_app s1 s2 evs Hlog), Hi.
  rewrite (uninitialized_not_cached _ b Hini). split; [reflexivity | exact Hr].
Qed.

Lemma capture_after_close_rebuilds_witness :
  exists (s1 : state) (r : option Frame) (s2 : state),
    close (always_ok bits0)
      (snd (capture (always_ok bits0) (Some box0) fresh)) = (Val tt, s1)
    /\ capture (always_ok bits0) (Some box0) s1 = (Val r, s2)
    /\ inits (new_log s1 s2) = 1%nat.
Proof.
  destruct (capture_after_close_rebuilds (always_ok bits0)
              (snd (capture (always_ok bits0) (Some box0) fresh)) box0)
    as (s1 & r & s2 & H1 & H2 & H3 & _).
  - split; reflexivity.
  - exists s1, r, s2. repeat split; assumption.
Defined.

End ScreenCaptureFacts.

(** ** Window enumeration and lookup *)

Module WindowsFacts.
Import Windows.

Lemma get_window_list_from (raws : list raw_window) :
  forall acc : list window,
    fold_left enum_windows_callback raws acc
    = acc ++ map entry (filter (fun rw => listed rw = true) raws).
Proof.
  induction raws as [| rw raws IH]; intros acc; simpl.
  - now rewrite app_nil_r.
  - rewrite IH, filter_cons. unfold enum_windows_callback, listed.
    destruct (is_visible rw), (truthy_string (window_text rw)); simpl;
      try reflexivity.
    now rewrite <- app_assoc.
Qed.

(** X19: [get_window_list] returns, in enumeration order, one entry for
    every window that is visible and has a non-empty title, and no
    other; its [width] and [height] are the differences of the rectangle's
    coordinates. *)
Theorem get_window_list_visible_titled (raws : list raw_window) :
  get_window_list raws = map entry (filter (fun rw => listed rw = true) raws)
  /\ Forall (fun w =>
               title w <> String.EmptyString
               /\ (let '(left0, top0, right0, bottom0) := rect w in
                   width w = right0 - left0 /\ height w = bottom0 - top0)
               /\ exists rw : raw_window,
                    rw ∈ raws /\ is_visible rw = true /\ w = entry rw)
       (get_window_list raws).
Proof.
  unfold get_window_list. rewrite get_window_list_from. simpl.
  split; [reflexivity|].
  apply Forall_forall. intros w Hw.
  apply list_elem_of_fmap in Hw as (rw & -> & Hrw).
  apply list_elem_of_filter in Hrw as [Hl Hin].
  unfold listed in Hl. apply andb_true_iff in Hl as [Hvis Htxt].
  split; [|split].
  - unfold entry. destruct (window_rect rw) as [[[l t] r] b]. simpl.
    intros E. rewrite E in Htxt. discriminate.
  - unfold entry. destruct (window_rect rw) as [[[l t] r] b]. simpl. auto.
  - exists rw. auto.
Qed.

(** Two ways of splitting one list around an element: the elements are
    the same, or one of them lies before the other. *)
Lemma list_eq_dec_prefix {A : Type} (l1 l2 : list A) (x y : A)
    (r1 r2 : list A) :
  l1 ++ x :: r1 = l2 ++ y :: r2 ->
  x = y \/ y ∈ l1 \/ x ∈ l2.
Proof.
  revert l2. induction l1 as [| a l1 IH]; intros l2 Heq.
  - destruct l2 as [| b l2]; simpl in Heq.
    + left. congruence.
    + right. right. injection Heq as -> _. left.
  - destruct l2 as [| b l2]; simpl in Heq.
    + right. left. injection Heq as -> _. left.
    + injection Heq as -> Heq.
      destruct (IH l2 Heq) as [H | [H | H]]; [left; exact H | |].
      * right. left. now right.
      * right. right. now right.
Qed.

Section WithLower.
Variable lower : string -> string.

Lemma search_spec (title_pattern : string) (exact_match : bool)
    (windows : list window) :
  match search lower title_pattern exact_match windows with
  | Some w =>
      exists before after : list window,
        windows = before ++ w :: after
        /\ matches lower title_pattern exact_match w = true
        /\ Forall (fun w' => matches lower title_pattern exact_match w' = false)
             before
  | None =>
      Forall (fun w' => matches lower title_pattern exact_match w' = false)
        windows
  end.
Proof.
  induction windows as [| w rest IH]; [constructor|].
  assert (Hstep : search lower title_pattern exact_match (w :: rest)
                  = if matches lower title_pattern exact_match w then Some w
                    else search lower title_pattern exact_match rest).
  { unfold matches. simpl. destruct exact_match; reflexivity. }
  rewrite Hstep.
  destruct (matches lower title_pattern exact_match w) eqn:Hm.
  - exists [], rest. repeat split; [exact Hm | constructor].
  - destruct (search lower title_pattern exact_match rest) as [w'|].
    + destruct IH as (before & after & -> & Hw' & Hbefore).
      exists (w :: before), after. repeat split; [exact Hw'|].
      now constructor.
    + now constructor.
Qed.

(** X20: [find_window_by_title] returns the first window of the list
    that passes the test (equal title, or lower-cased pattern contained
    in the lower-cased title): every window listed before it fails the
    test; it returns [None] exactly when no listed window passes. *)
Theorem find_window_by_title_first_match
    (raws : list raw_window) (title_pattern : string) (exact_match : bool) :
  match find_window_by_title lower raws title_pattern exact_match with
  | Some w =>
      exists before after : list window,
        get_window_list raws = before ++ w :: after
        /\ matches lower title_pattern exact_match w = true
        /\ Forall (fun w' => matches lower title_pattern exact_match w' = false)
             before
  | None =>
      Forall (fun w' => matches lower title_pattern exact_match w' = false)
        (get_window_list raws)
  end
  /\ (find_window_by_title lower raws title_pattern exact_match = None
      <-> Forall (fun w' => matches lower title_pattern exact_match w' = false)
            (get_window_list raws)).
Proof.
  unfold find_window_by_title.
  pose proof (search_spec title_pattern exact_match (get_window_list raws))
    as Hspec.
  split; [exact Hspec|].
  destruct (search lower title_pattern exact_match (get_window_list raws))
    as [w|].
  - split; [discriminate|]. intros Hall.
    destruct Hspec as (before & after & Heq & Hw & _).
    rewrite Heq in Hall. apply Forall_app in Hall as [_ Hall].
    apply Forall_cons in Hall as [Hw' _]. congruence.
  - split; auto.
Qed.

Lemma prefix_refl (s : string) : String.prefix s s = true.
Proof.
  induction s as [| a s IH]; [reflexivity|].
  simpl. destruct (Ascii.ascii_dec a a); [exact IH | congruence].
Qed.

Lemma contains_refl (s : string) : contains s s = true.
Proof.
  destruct s as [| a s]; cbn [contains]; now rewrite prefix_refl.
Qed.

Lemma contains_empty (hay : string) : contains String.EmptyString hay = true.
Proof. destruct hay; reflexivity. Qed.

(** X21: the substring search is at least as permissive as the exact
    search: whenever [find_window_by_title] with [exact_match] finds a
    window, it also finds one without [exact_match], namely that window
    or one listed before it. *)
Theorem exact_match_implies_substring_match
    (raws : list raw_window) (title_pattern : string) (w : window) :
  find_window_by_title lower raws title_pattern true = Some w ->
  exists (w' : window) (before after : list window),
    find_window_by_title lower raws title_pattern false = Some w'
    /\ get_window_list raws = before ++ w :: after
    /\ (w' = w \/ w' ∈ before).
Proof.
  unfold find_window_by_title. intros Hexact.
  pose proof (search_spec title_pattern true (get_window_list raws)) as He.
  rewrite Hexact in He. destruct He as (before & after & Heq & Hw & Hbefore).
  unfold matches in Hw. apply String.eqb_eq in Hw.
  assert (Hsub : matches lower title_pattern false w = true).
  { unfold matches. rewrite Hw. apply contains_refl. }
  pose proof (search_spec title_pattern false (get_window_list raws)) as Hs.
  destruct (search lower title_pattern false (get_window_list raws)) as [w'|].
  - exists w', before, after. split; [reflexivity|]. split; [exact Heq|].
    destruct Hs as (before' & after' & Heq' & Hw' & Hbefore').
    rewrite Heq in Heq'.
    destruct (list_eq_dec_prefix before before' w w' after after' Heq')
      as [Hsame | [Hin | Hin]].
    + left. now symmetry.
    + right. exact Hin.
    + exfalso. rewrite Forall_forall in Hbefore'.
      specialize (Hbefore' w Hin). congruence.
  - exfalso. rewrite Heq in Hs. apply Forall_app in Hs as [_ Hs].
    apply Forall_cons in Hs as [Hs _]. congruence.
Qed.

(** X22: a pattern whose lower-cased form is empty is contained in
    every title, so the substring search returns the first listed
    window, if there is one. *)
Theorem empty_pattern_matches_first_window
    (raws : list raw_window) (title_pattern : string) :
  lower title_pattern = String.EmptyString ->
  find_window_by_title lower raws title_pattern false
  = head (get_window_list raws).
Proof.
  intros Hempty. unfold find_window_by_title.
  destruct (get_window_list raws) as [| w rest]; [reflexivity|].
  cbn [search head]. now rewrite Hempty, contains_empty.
Qed.

End WithLower.

Lemma exact_match_implies_substring_match_witness :
  exists (w' : window) (before after : list window),
    find_window_by_title (fun s => s)
      [WindowSamples.hidden; WindowSamples.calculator]
      WindowSamples.calculator_title false = Some w'
    /\ get_window_list [WindowSamples.hidden; WindowSamples.calculator]
       = before ++ entry WindowSamples.calculator :: after
    /\ (w' = entry WindowSamples.calculator \/ w' ∈ before).
Proof.
  apply (exact_match_implies_substring_match (fun s => s)).
  reflexivity.
Defined.

Lemma empty_pattern_matches_first_window_witness :
  find_window_by_title (fun s => s)
    [WindowSamples.hidden; WindowSamples.calculator]
    WindowSamples.empty_pattern false
  = head (get_window_list [WindowSamples.hidden; WindowSamples.calculator]).
Proof.
  apply (empty_pattern_matches_first_window (fun s => s)).
  reflexivity.
Defined.

End WindowsFacts.

(** ** Display scale check *)

Module DisplayScaleFacts.
Import DisplayScale.

Lemma scale_percent_100 (d : Z) : (d * 100) / 96 = 100 <-> d = 96.
Proof.
  split.
  - intros H.
    pose proof (Z.div_mod (d * 100) 96 ltac:(lia)) as Hdm.
    pose proof (Z.mod_pos_bound (d * 100) 96 ltac:(lia)) as Hb.
    lia.
  - intros ->. reflexivity.
Qed.

(** X23: [check_display_scale] ends the process, with code 1, exactly
    when the DPI query worked, the DPI is not 96 (the only value whose
    scale [dpi * 100 // 96] is 100) and the error box could be shown; a
    failing query or a failing error box makes the check pass silently. *)
Theorem check_display_scale_exits_iff (dpi : res Z) (dialog : res unit) :
  (forall code : Z,
     check_display_scale dpi dialog = Exits code
     <-> code = 1
         /\ exists d : Z, dpi = Val d /\ d <> 96 /\ dialog = Val tt)
  /\ (check_display_scale dpi dialog = Returns
      <-> dpi = Raise \/ dpi = Val 96 \/ dialog = Raise).
Proof.
  unfold check_display_scale.
  destruct dpi as [d|].
  - destruct (Z.eqb_spec (d * 100 / 96) 100) as [E | E]; cbn [negb].
    + apply scale_percent_100 in E. subst d. split.
      * intros code. split; [discriminate|].
        intros (_ & d & [= <-] & Hne & _). contradiction.
      * split; auto.
    + assert (Hd : d <> 96) by (intros ->; apply E; reflexivity).
      destruct dialog as [[]|]; split.
      * intros code. split.
        -- intros [= <-]. split; [reflexivity|]. exists d. auto.
        -- intros [-> _]. reflexivity.
      * split; [discriminate|].
        intros [H | [H | H]]; try discriminate. injection H as ->. contradiction.
      * intros code. split; [discriminate|].
        intros (_ & d' & _ & _ & H). discriminate.
      * split; auto.
  - split.
    + intros code. split; [discriminate|].
      intros (_ & d & H & _). discriminate.
    + split; auto.
Qed.

End DisplayScaleFacts.

(** ** Removing old files *)

Module FilesFacts.
Import Files.

Lemma step_stale (cutoff_time : Q) (n : Z) (removed : list String.string)
    (f : file) :
  step cutoff_time (n, removed) f
  = if stale cutoff_time f then (n + 1, removed ++ [path f])
    else (n, removed).
Proof.
  unfold step, stale. destruct (mtime f) as [m|]; [|reflexivity].
  destruct (PerformanceMonitor.Qlt_bool m cutoff_time), (removable f);
    reflexivity.
Qed.

Lemma cleanup_loop (cutoff_time : Q) (files : list file) :
  forall (n : Z) (removed : list String.string),
    fold_left (step cutoff_time) files (n, removed)
    = (n + Z.of_nat (length (filter (fun f => stale cutoff_time f = true) files)),
       removed ++ map path (filter (fun f => stale cutoff_time f = true) files)).
Proof.
  induction files as [| f files IH]; intros n removed.
  - simpl. rewrite app_nil_r. f_equal. lia.
  - cbn [fold_left]. rewrite step_stale, filter_cons.
    destruct (stale cutoff_time f) eqn:E.
    + rewrite IH, decide_True by reflexivity.
      cbn [length map]. rewrite <- app_assoc. f_equal. lia.
    + rewrite IH, decide_False by discriminate. reflexivity.
Qed.

(** X24: [cleanup_old_files] returns the number of files it removed.
    The files removed are, in listing order, exactly those whose
    modification time could be read and is earlier than
    [now - max_age_days * 86400] and whose removal succeeded; a file that
    cannot be read or removed is skipped without stopping the loop, and a
    failing listing removes nothing and returns 0. *)
Theorem cleanup_old_files_counts_removed
    (now : Q) (listing : res (list file)) (max_age_days : Q) :
  let cutoff_time := (now - max_age_days * 24 * 60 * 60)%Q in
  let '(deleted_count, removed) := cleanup_old_files now listing max_age_days in
  deleted_count = Z.of_nat (length removed)
  /\ match listing with
     | Val files =>
         removed = map path (filter (fun f => stale cutoff_time f = true) files)
         /\ forall f : file,
              f ∈ files ->
              (exists m : Q, mtime f = Val m /\ (cutoff_time <= m)%Q) ->
              stale cutoff_time f = false
     | Raise => removed = []
     end.
Proof.
  cbv zeta. unfold cleanup_old_files.
  destruct listing as [files|]; [|split; reflexivity].
  rewrite cleanup_loop. cbn [app].
  split; [now rewrite length_map|]. split; [reflexivity|].
  intros f _ (m & Hm & Hle). unfold stale. rewrite Hm.
  unfold PerformanceMonitor.Qlt_bool.
  apply Qle_bool_iff in Hle. now rewrite Hle.
Qed.

End FilesFacts.
